(** * Walker propagation and population control of pauxy (AFQMC)

    A shallow embedding of the walker algebra ([pauxy/walker.py],
    [pauxy/utils/linalg.py]), the two comb resamplers ([pauxy/walker.py],
    [pauxy/walkers/handler.py]), branching, the continuous phaseless step
    ([pauxy/propagation/continuous.py]) and the constrained discrete sweep
    ([pauxy/thermal_propagation/hubbard.py]).

    Numbers are exact: amplitudes live in a field [C], weights in an ordered
    field [R]; rounding is not modelled.  Python objects that are mutated in
    place are threaded through a state-and-exception monad, so that the state
    of the object at the moment an exception escapes is still visible. *)

From HB Require Import structures.
From Stdlib Require Import String.
From mathcomp Require Import ssreflect ssrfun ssrbool eqtype ssrnat seq choice.
From mathcomp Require Import div path fintype bigop order ssralg ssrnum ssrint.
From mathcomp Require Import rat intdiv matrix.

Set Implicit Arguments.
Unset Strict Implicit.
Unset Printing Implicit Defensive.

Import GRing.Theory Num.Theory Order.Theory.
Local Open Scope ring_scope.

(** ** Python control flow: mutable state and exceptions *)

Module Py.

Inductive exn : Type :=
| NameError (name : string)
| AttributeError (attr : string)
| TypeError
| ValueError
| OverflowError
| LinAlgError
| IndexError
| ZeroDivisionError.

(** Either a value and the final state, or an exception and the state the
    mutated objects were left in when it escaped. *)
Inductive outcome (S A : Type) : Type :=
| Ok (a : A) (s : S)
| Raise (e : exn) (s : S).

Arguments Ok {S A} a s.
Arguments Raise {S A} e s.

Definition M (S A : Type) : Type := S -> outcome S A.

Definition ret {S A} (a : A) : M S A := fun s => Ok a s.

Definition bind {S A B} (c : M S A) (k : A -> M S B) : M S B :=
  fun s => match c s with
           | Ok a s' => k a s'
           | Raise e s' => Raise e s'
           end.

Definition raise {S A} (e : exn) : M S A := fun s => Raise e s.
Definition get {S} : M S S := fun s => Ok s s.
Definition put {S} (s : S) : M S unit := fun _ => Ok tt s.
Definition modify {S} (f : S -> S) : M S unit := fun s => Ok tt (f s).

(** A library call that either returns or raises, without touching the state. *)
Definition lift {S A} (r : exn + A) : M S A :=
  fun s => match r with inl e => Raise e s | inr a => Ok a s end.

(** Runs a computation on a component of the state. *)
Definition zoom {S T A} (prj : S -> T) (upd : T -> S -> S) (c : M T A) : M S A :=
  fun s => match c (prj s) with
           | Ok a t => Ok a (upd t s)
           | Raise e t => Raise e (upd t s)
           end.

Definition returns {S A} (o : outcome S A) : bool :=
  if o is Ok _ _ then true else false.

Definition final {S A} (o : outcome S A) : S :=
  match o with Ok _ s => s | Raise _ s => s end.

Definition run {S A} (c : M S A) (s : S) : exn + A * S :=
  match c s with Ok a s' => inr (a, s') | Raise e _ => inl e end.

(** [for x in xs: body x] *)
Fixpoint for_each {S X} (xs : seq X) (body : X -> M S unit) : M S unit :=
  match xs with
  | [::] => ret tt
  | x :: xs' => bind (body x) (fun _ => for_each xs' body)
  end.

End Py.

Notation "x <-- c1 ;; c2" := (Py.bind c1 (fun x => c2))
  (at level 61, c1 at next level, right associativity).
Notation "c1 ;; c2" := (Py.bind c1 (fun _ => c2))
  (at level 61, right associativity).

(** ** numpy.random: the generator is a stream and a read position *)

Module Rng.
Section Rng.
Variable R : Type.

Record state : Type := mk { stream : nat -> R; pos : nat }.

(** [numpy.random.random()] *)
Definition random (g : state) : R * state :=
  (stream g (pos g), mk (stream g) (pos g).+1).

Definition drawn (g g' : state) : nat := (pos g' - pos g)%N.

End Rng.
End Rng.

(** ** pauxy/utils/linalg.py *)

Module Linalg.
Section Linalg.
Variable C : fieldType.

(** [numpy.outer(u, vt)] on two one-dimensional arrays. *)
Definition outer m n (u : 'rV[C]_m) (vt : 'rV[C]_n) : 'M[C]_(m, n) :=
  u^T *m vt.

(** [vt.dot(Ainv).dot(u)], a scalar. *)
Definition vMv n (vt : 'rV[C]_n) (Ainv : 'M[C]_n) (u : 'rV[C]_n) : C :=
  (vt *m Ainv *m u^T) 0 0.

(** [sherman_morrison(Ainv, u, vt)]:
    [Ainv - Ainv.dot(outer(u,vt)).dot(Ainv) / (1.0 + vt.dot(Ainv).dot(u))]. *)
Definition sherman_morrison n (Ainv : 'M[C]_n) (u vt : 'rV[C]_n) : 'M[C]_n :=
  Ainv - (1 + vMv vt Ainv u)^-1 *: (Ainv *m outer u vt *m Ainv).

(** [scipy.linalg.inv]: raises [LinAlgError] on a singular matrix. *)
Definition inv n (A : 'M[C]_n) : Py.exn + 'M[C]_n :=
  if A \in unitmx then inr (invmx A) else inl Py.LinAlgError.



End Linalg.
End Linalg.

(** ** pauxy/walker.py: class Walker *)

Module SingleDet.
Section SingleDet.
Variable R : Type.
Variable C : fieldType.
(** [x.conj()], entry by entry. *)
Variable conj : C -> C.
Variables nbasis nup ndown : nat.

Definition wfn : Type := 'M[C]_(nbasis, nup + ndown).

Record Walker : Type := mkWalker {
  weight : R;
  alive : bool;
  phi : wfn;
  inv_ovlp : 'M[C]_nup * 'M[C]_ndown;
  G : 'M[C]_nbasis * 'M[C]_nbasis;
  ot : C
}.

Definition set_weight (x : R) (w : Walker) : Walker :=
  mkWalker x (alive w) (phi w) (inv_ovlp w) (G w) (ot w).
Definition set_alive (b : bool) (w : Walker) : Walker :=
  mkWalker (weight w) b (phi w) (inv_ovlp w) (G w) (ot w).
Definition set_phi (p : wfn) (w : Walker) : Walker :=
  mkWalker (weight w) (alive w) p (inv_ovlp w) (G w) (ot w).
Definition set_inv_ovlp_up (a : 'M[C]_nup) (w : Walker) : Walker :=
  mkWalker (weight w) (alive w) (phi w) (a, (inv_ovlp w).2) (G w) (ot w).
Definition set_inv_ovlp_down (a : 'M[C]_ndown) (w : Walker) : Walker :=
  mkWalker (weight w) (alive w) (phi w) ((inv_ovlp w).1, a) (G w) (ot w).
Definition set_G (g : 'M[C]_nbasis * 'M[C]_nbasis) (w : Walker) : Walker :=
  mkWalker (weight w) (alive w) (phi w) (inv_ovlp w) g (ot w).
Definition set_ot (o : C) (w : Walker) : Walker :=
  mkWalker (weight w) (alive w) (phi w) (inv_ovlp w) (G w) o.

(** [(trial[:, blk].conj()).T.dot(self.phi[:, blk])] *)
Definition overlap k (trial p : 'M[C]_(nbasis, k)) : 'M[C]_k :=
  (map_mx conj trial)^T *m p.

(** [Walker.inverse_overlap(self, trial)]: the up block is stored before the
    down block is inverted. *)
Definition inverse_overlap (trial : wfn) : Py.M Walker unit :=
  w <-- Py.get ;;
  up <-- Py.lift (Linalg.inv (overlap (lsubmx trial) (lsubmx (phi w)))) ;;
  Py.modify (set_inv_ovlp_up up) ;;
  dn <-- Py.lift (Linalg.inv (overlap (rsubmx trial) (rsubmx (phi w)))) ;;
  Py.modify (set_inv_ovlp_down dn).

(** [Walker.update_inverse_overlap(self, trial, vtup, vtdown, i)] *)
Definition update_inverse_overlap (trial : wfn) (vtup : 'rV[C]_nup)
    (vtdown : 'rV[C]_ndown) (i : 'I_nbasis) : Py.M Walker unit :=
  w <-- Py.get ;;
  Py.modify (set_inv_ovlp_up
    (Linalg.sherman_morrison (inv_ovlp w).1
       (map_mx conj (row i (lsubmx trial))) vtup)) ;;
  Py.modify (set_inv_ovlp_down
    (Linalg.sherman_morrison (inv_ovlp w).2
       (map_mx conj (row i (rsubmx trial))) vtdown)).

(** [Walker.calc_otrial]: [1.0/(det(inv_ovlp[0])*det(inv_ovlp[1]))]. *)
Definition calc_otrial (w : Walker) : C :=
  1 / (\det (inv_ovlp w).1 * \det (inv_ovlp w).2).

(** [Walker.greens_function(self, trial)] *)
Definition greens_function (trial : wfn) : Py.M Walker unit :=
  w <-- Py.get ;;
  Py.modify (set_G
    ((lsubmx (phi w) *m (inv_ovlp w).1 *m (map_mx conj (lsubmx trial))^T)^T,
     (rsubmx (phi w) *m (inv_ovlp w).2 *m (map_mx conj (rsubmx trial))^T)^T)).

(** The amplitude after the rows of site [i] have been shifted by [vtup]
    and [vtdown]: [phi[i,:nup] += vtup; phi[i,nup:] += vtdown]. *)
Definition site_change (i : 'I_nbasis) (vtup : 'rV[C]_nup)
    (vtdown : 'rV[C]_ndown) (p : wfn) : wfn :=
  p + row_mx (delta_mx i 0 *m vtup) (delta_mx i 0 *m vtdown).

(** [Walker.__init__(self, nw, system, trial, index)]; [phi0] is the initial
    amplitude (a copy of [trial.psi], or the free-electron determinant). *)
Definition init (nw : R) (trial phi0 : wfn) : Py.exn + Walker :=
  match Py.run (inverse_overlap trial ;; greens_function trial)
               (mkWalker nw true phi0 (0, 0) (0, 0) 0) with
  | inr (_, w) => inr (set_ot 1 w)
  | inl e => inl e
  end.

End SingleDet.
End SingleDet.

(** ** numpy and Python arithmetic on exact numbers *)

Module Np.
Section Np.
Variable R : realFieldType.

(** The builtin [sum]: a left fold from [0]. *)
Definition pysum (xs : seq R) : R := foldl +%R 0 xs.

(** [numpy.cumsum] *)
Definition cumsum (xs : seq R) : seq R := scanl +%R 0 xs.

(** [x / y] on Python numbers. *)
Definition pydiv (x y : R) : Py.exn + R :=
  if y == 0 then inl Py.ZeroDivisionError else inr (x / y).

(** [a[i] = x] on an integer array. *)
Definition setitem (a : seq nat) (i x : nat) : Py.exn + seq nat :=
  if (i < size a)%N then inr (set_nth 0%N a i x) else inl Py.IndexError.

(** [a[i] += 1] on an integer array. *)
Definition incritem (a : seq nat) (i : nat) : Py.exn + seq nat :=
  if (i < size a)%N then inr (set_nth 0%N a i (nth 0%N a i).+1)
  else inl Py.IndexError.

(** [[(i+r) * (total_weight/(ntarget)) for i in range(ntarget)]], the teeth
    of the comb; the same line in both comb implementations. *)
Definition comb_teeth (total_weight : R) (ntarget : nat) (r : R) : seq R :=
  [seq (i%:R + r) * (total_weight / ntarget%:R) | i <- iota 0 ntarget].

End Np.
End Np.

(** ** The [inputs] dictionary of options *)

Module Config.
Section Config.
Variable R : Type.

Inductive value : Type := Num (x : R) | Str (s : string).

Definition dict : Type := seq (string * value).

(** [d.get(key, default)] *)
Fixpoint get (d : dict) (key : string) (default : value) : value :=
  match d with
  | [::] => default
  | (k, v) :: d' => if String.eqb k key then v else get d' key default
  end.

(** [d[key]], when the key is present. *)
Fixpoint lookup (d : dict) (key : string) : option value :=
  match d with
  | [::] => None
  | (k, v) :: d' => if String.eqb k key then Some v else lookup d' key
  end.

(** A number is expected where the code does arithmetic or compares. *)
Definition as_float (v : value) : Py.exn + R :=
  match v with Num x => inr x | Str _ => inl Py.TypeError end.

End Config.
End Config.

(** ** pauxy/walker.py: class Walkers *)

Module Ensemble.
Section Ensemble.
Variable R : realFieldType.
Variable C : fieldType.
Variable conj : C -> C.
Variables nbasis nup ndown : nat.
(** [math.floor] *)
Variable floor : R -> int.

Notation Walker := (SingleDet.Walker R C nbasis nup ndown).
Notation wfn := (SingleDet.wfn C nbasis nup ndown).
Notation value := (Config.value R).

Record Walkers : Type := mkWalkers {
  pcontrol : value;
  wmax : value;
  wmin : value;
  max_nwalkers : value;
  min_nwalkers : value;
  walkers : seq Walker;
  total_weight : R;
  nw : nat
}.

Definition set_walkers (l : seq Walker) (ws : Walkers) : Walkers :=
  mkWalkers (pcontrol ws) (wmax ws) (wmin ws) (max_nwalkers ws)
    (min_nwalkers ws) l (total_weight ws) (nw ws).

(** [sum(w.weight for w in self.walkers if w.alive)] *)
Definition alive_weight (l : seq Walker) : R :=
  Np.pysum [seq SingleDet.weight w | w <- l & SingleDet.alive w].

(** [Walkers.calculate_total_weight] *)
Definition calculate_total_weight (ws : Walkers) : Walkers :=
  mkWalkers (pcontrol ws) (wmax ws) (wmin ws) (max_nwalkers ws)
    (min_nwalkers ws) (walkers ws) (alive_weight (walkers ws)) (nw ws).

(** [Walkers.calculate_nwalkers]: [sum(w.alive for w in self.walkers)] *)
Definition calculate_nwalkers (ws : Walkers) : Walkers :=
  mkWalkers (pcontrol ws) (wmax ws) (wmin ws) (max_nwalkers ws)
    (min_nwalkers ws) (walkers ws) (total_weight ws)
    (count (@SingleDet.alive R C nbasis nup ndown) (walkers ws)).

(** [Walkers.__init__] for a single-determinant trial.  The options are read
    before any walker is built; a walker that cannot be built (singular
    overlap with the trial) aborts the construction. *)
Definition init (inputs : Config.dict R) (trial phi0 : wfn) (nwalkers : nat)
    : Py.exn + Walkers :=
  let pcontrol := Config.get inputs "population_control" (Config.Str R "comb") in
  let wmax := Config.get inputs "max_weight" (Config.Num 4) in
  let wmin := Config.get inputs "max_weight" (Config.Num (5 / 100)) in
  let max_nwalkers :=
    Config.get inputs "maximum_walker_count" (Config.Num (11 / 10 * nwalkers%:R)) in
  let min_nwalkers :=
    Config.get inputs "minimum_walker_count" (Config.Num (9 / 10 * nwalkers%:R)) in
  let build l :=
    inr (calculate_nwalkers (calculate_total_weight
          (mkWalkers pcontrol wmax wmin max_nwalkers min_nwalkers l 0 0))) in
  if nwalkers is 0%N then build [::]
  else match SingleDet.init conj 1 trial phi0 with
       | inr w => build (nseq nwalkers w)
       | inl e => inl e
       end.

(** [for w in self.walkers: w.weight /= factor] *)
Fixpoint divide_weights (factor : R) (l : seq Walker) : Py.exn + seq Walker :=
  match l with
  | [::] => inr [::]
  | w :: l' =>
      match Np.pydiv (SingleDet.weight w) factor with
      | inl e => inl e
      | inr x =>
          match divide_weights factor l' with
          | inl e => inl e
          | inr l'' => inr (SingleDet.set_weight x w :: l'')
          end
      end
  end.

(** [Walkers.rescale_weights] *)
Definition rescale_weights : Py.M Walkers unit :=
  Py.modify calculate_total_weight ;;
  ws <-- Py.get ;;
  m <-- Py.lift (Config.as_float (max_nwalkers ws)) ;;
  factor <-- Py.lift (Np.pydiv (total_weight ws) m) ;;
  l <-- Py.lift (divide_weights factor (walkers ws)) ;;
  Py.modify (set_walkers l).

(** *** comb: the assignment of teeth to parents (lines 101-111) *)

(** [for (iw, w) in enumerate(cprobs): if c < w: ...; break] *)
Fixpoint first_exceeding (c : R) (cprobs : seq R) (iw : nat) : option nat :=
  match cprobs with
  | [::] => None
  | w :: cprobs' => if c < w then Some iw else first_exceeding c cprobs' iw.+1
  end.

(** [for (ic, c) in enumerate(comb): ... parent_ix[ic] = iw] *)
Fixpoint assign_parents (comb : seq R) (ic : nat) (cprobs : seq R)
    (parent_ix : seq nat) : Py.exn + seq nat :=
  match comb with
  | [::] => inr parent_ix
  | c :: comb' =>
      match first_exceeding c cprobs 0 with
      | Some iw =>
          match Np.setitem parent_ix ic iw with
          | inr p => assign_parents comb' ic.+1 cprobs p
          | inl e => inl e
          end
      | None => assign_parents comb' ic.+1 cprobs parent_ix
      end
  end.

(** The block run by the root process: [parent_ix] starts as
    [numpy.arange(len(global_weights))]. *)
Definition comb_parents (global_weights : seq R) (ntarget : nat) (r : R)
    : Py.exn + seq nat :=
  let total_weight := Np.pysum global_weights in
  let cprobs := Np.cumsum global_weights in
  assign_parents (Np.comb_teeth total_weight ntarget r) 0 cprobs
    (iota 0 (size global_weights)).

(** *** branching *)

Record marks : Type := mkMarks {
  iclone : seq nat; nclone : seq int; ikill : seq nat
}.

(** The body of the search loop for walker [i] and its draw [r]. *)
Definition branch_one (wmaxv wminv : value) (i : nat) (r : R) (w : Walker)
    (m : marks) : Py.exn + Walker * marks :=
  match Config.as_float wmaxv with
  | inl e => inl e
  | inr wmax =>
      if SingleDet.weight w > wmax then
        let extra := floor (SingleDet.weight w) - 1 in
        let extra :=
          if SingleDet.weight w - (extra + 1)%:~R > r then extra + 1 else extra in
        inr (SingleDet.set_weight 1 w,
             mkMarks (rcons (iclone m) i) (rcons (nclone m) extra) (ikill m))
      else
        match Config.as_float wminv with
        | inl e => inl e
        | inr wmin =>
            if SingleDet.weight w < wmin then
              if SingleDet.weight w < r then
                inr (SingleDet.set_alive false w,
                     mkMarks (iclone m) (nclone m) (rcons (ikill m) i))
              else inr (w, m)
            else inr (w, m)
        end
  end.

(** [for (i, w) in enumerate(self.walkers): r = numpy.random.random(); ...] *)
Fixpoint search (wmaxv wminv : value) (i : nat) (l : seq Walker)
    (g : Rng.state R) (m : marks)
    : Py.exn + seq Walker * Rng.state R * marks :=
  match l with
  | [::] => inr ([::], g, m)
  | w :: l' =>
      let (r, g1) := Rng.random g in
      match branch_one wmaxv wminv i r w m with
      | inl e => inl e
      | inr (w1, m1) =>
          match search wmaxv wminv i.+1 l' g1 m1 with
          | inl e => inl e
          | inr (l1, g2, m2) => inr (w1 :: l1, g2, m2)
          end
      end
  end.

(** [self.walkers[i]] *)
Definition getitem (l : seq Walker) (i : nat) : Py.exn + Walker :=
  if drop i l is w :: _ then inr w else inl Py.IndexError.

(** [range(0, nc)] *)
Definition range0 (nc : int) : seq nat :=
  if nc is Posz n then iota 0 n else [::].

(** One copy of walker [ic]: into the next dead slot, or appended. *)
Definition place_copy (kill : seq nat) (ic : nat)
    (st : seq Walker * nat) : Py.exn + seq Walker * nat :=
  let (l, ncopy) := st in
  match getitem l ic with
  | inl e => inl e
  | inr w =>
      if (size kill <= ncopy)%N then inr (rcons l w, ncopy)
      else if (nth 0%N kill ncopy < size l)%N
           then inr (set_nth w l (nth 0%N kill ncopy) w, ncopy.+1)
           else inl Py.IndexError
  end.

Fixpoint place_copies (kill : seq nat) (ic : nat) (ixs : seq nat)
    (st : seq Walker * nat) : Py.exn + seq Walker * nat :=
  match ixs with
  | [::] => inr st
  | _ :: ixs' =>
      match place_copy kill ic st with
      | inl e => inl e
      | inr st' => place_copies kill ic ixs' st'
      end
  end.

(** [for (ic, nc) in zip(iclone, nclone): for ix in range(0, nc): ...] *)
Fixpoint clone (kill : seq nat) (todo : seq (nat * int))
    (st : seq Walker * nat) : Py.exn + seq Walker * nat :=
  match todo with
  | [::] => inr st
  | (ic, nc) :: todo' =>
      match place_copies kill ic (range0 nc) st with
      | inl e => inl e
      | inr st' => clone kill todo' st'
      end
  end.

(** [self.walkers.sort(key = lambda x: x.alive, reverse=True)]: stable. *)
Definition sort_alive (l : seq Walker) : seq Walker :=
  [seq w <- l | SingleDet.alive w] ++ [seq w <- l | ~~ SingleDet.alive w].

(** The part of [branching] after the rescaling. *)
Definition branch_body : Py.M (Walkers * Rng.state R) unit :=
  fun st =>
    let (ws, g) := st in
    match search (wmax ws) (wmin ws) 0 (walkers ws) g (mkMarks [::] [::] [::]) with
    | inl e => Py.Raise e st
    | inr (l, g', m) =>
        match clone (ikill m) (zip (iclone m) (nclone m)) (l, 0%N) with
        | inl e => Py.Raise e (set_walkers l ws, g')
        | inr (l', _) =>
            Py.Ok tt (calculate_nwalkers (calculate_total_weight
                        (set_walkers (sort_alive l') ws)), g')
        end
    end.


(** *** comb without a communicator *)

(** [for (i,p) in enumerate(parent_ix): ...]: the entries
    [[slot, process, i]] this process receives and sends. *)
Fixpoint comb_plan (iproc nw : nat) (parent_ix : seq nat) (i : nat)
    (send recv : seq (nat * nat * nat))
    : Py.exn + seq (nat * nat * nat) * seq (nat * nat * nat) :=
  match parent_ix with
  | [::] => inr (send, recv)
  | p :: rest =>
      if nw is 0%N then inl Py.ZeroDivisionError
      else
        let loc_ix := (i %% nw)%N in
        let new_ix := (p %% nw)%N in
        let proc_ix := (i %/ nw)%N in
        let new_proc_ix := (p %/ nw)%N in
        if (proc_ix == iproc) && (new_ix != loc_ix) then
          comb_plan iproc nw rest i.+1
            (if new_proc_ix == iproc then rcons send (new_ix, proc_ix, i) else send)
            (rcons recv (loc_ix, new_proc_ix, i))
        else if (new_proc_ix == iproc) && (new_ix != loc_ix) then
          comb_plan iproc nw rest i.+1 (rcons send (new_ix, proc_ix, i)) recv
        else comb_plan iproc nw rest i.+1 send recv
  end.

(** [Walkers.comb(self, comm, iproc, nprocs)] called with [comm = None] and
    [iproc = 0].  Nothing is gathered, so [global_weights] is still the
    array of zeros it was created as; [comm.isend], [comm.recv] and
    [comm.Barrier] are attribute lookups on [None]. *)
Definition comb_no_comm (nprocs : nat) : Py.M (Walkers * Rng.state R) unit :=
  fun st =>
    let (ws, g) := st in
    let global_weights := nseq (size (walkers ws) * nprocs) (0 : R) in
    let ntarget := (nw ws * nprocs)%N in
    let (r, g') := Rng.random g in
    match comb_parents global_weights ntarget r with
    | inl e => Py.Raise e (ws, g')
    | inr parent_ix =>
        match comb_plan 0 (nw ws) parent_ix 0 [::] [::] with
        | inl e => Py.Raise e (ws, g')
        | inr (send, recv) =>
            match send with
            | s :: _ =>
                match getitem (walkers ws) s.1.1 with
                | inl e => Py.Raise e (ws, g')
                | inr _ => Py.Raise (Py.AttributeError "isend") (ws, g')
                end
            | [::] =>
                if recv is _ :: _ then Py.Raise (Py.AttributeError "recv") (ws, g')
                else Py.Raise (Py.AttributeError "Barrier") (ws, g')
            end
        end
    end.

End Ensemble.
End Ensemble.

(** ** pauxy/walkers/handler.py: class Walkers *)

Module Handler.
Section Handler.
Variable R : realFieldType.
(** What a walker's buffer carries besides the weight. *)
Variable B : Type.

Record Walker : Type := mkWalker {
  weight : R;
  alive : bool;
  total_weight : R;
  state : B
}.

Definition set_weight (x : R) (w : Walker) : Walker :=
  mkWalker x (alive w) (total_weight w) (state w).

Record Walkers : Type := mkWalkers {
  nwalkers : nat;
  ntot_walkers : nat;
  walkers : seq Walker;
  nw : nat
}.

Definition set_walkers (l : seq Walker) (ws : Walkers) : Walkers :=
  mkWalkers (nwalkers ws) (ntot_walkers ws) l (nw ws).

(** [Walkers.set_total_weight] *)
Definition set_total_weight (t : R) (l : seq Walker) : seq Walker :=
  [seq mkWalker (weight w) (alive w) t (state w) | w <- l].

(** Modelled from the spec: walker state is transferred, not re-simulated
    (section 4.4); the walker classes of this handler are outside the
    sources, and the buffer is taken as in [Walker.get_buffer] and
    [Walker.set_buffer] of pauxy/walker.py, which carry the weight too. *)
Definition get_buffer (w : Walker) : B * R := (state w, weight w).
Definition set_buffer (b : B * R) (w : Walker) : Walker :=
  mkWalker b.2 (alive w) (total_weight w) b.1.

(** The [while ic < len(comb)] loop; [cprobs] and [comb] are what is left of
    the two arrays from positions [iw] and [ic] on. *)
Fixpoint comb_walk (cprobs : seq R) (iw : nat) (comb : seq R)
    (parent_ix : seq nat) {struct cprobs} : Py.exn + seq nat :=
  match cprobs with
  | [::] => if comb is [::] then inr parent_ix else inl Py.IndexError
  | w :: cprobs' =>
      (fix teeth (comb : seq R) (parent_ix : seq nat) {struct comb} :=
         match comb with
         | [::] => inr parent_ix
         | c :: comb' =>
             if c < w then
               match Np.incritem parent_ix iw with
               | inr p => teeth comb' p
               | inl e => inl e
               end
             else comb_walk cprobs' iw.+1 comb parent_ix
         end) comb parent_ix
  end.

(** The block run by the root process: [parent_ix] starts as zeros. *)
Definition comb_counts (global_weights : seq R) (ntarget : nat) (r : R)
    : Py.exn + seq nat :=
  let total_weight := Np.pysum global_weights in
  let cprobs := Np.cumsum global_weights in
  comb_walk cprobs 0 (Np.comb_teeth total_weight ntarget r)
    (nseq (size global_weights) 0%N).

(** [[i//self.nw, i%self.nw]] *)
Definition locate (i n : nat) : Py.exn + nat * nat :=
  if n is 0%N then inl Py.ZeroDivisionError else inr ((i %/ n)%N, (i %% n)%N).

(** [for (i, w) in enumerate(parent_ix): ...]: who receives, who sends. *)
Fixpoint plan (parent_ix : seq nat) (i n : nat)
    (send recv : seq (nat * nat))
    : Py.exn + seq (nat * nat) * seq (nat * nat) :=
  match parent_ix with
  | [::] => inr (send, recv)
  | w :: rest =>
      if w is 0%N then
        match locate i n with
        | inl e => inl e
        | inr p => plan rest i.+1 n send (rcons recv p)
        end
      else if (1 < w)%N then
        match locate i n with
        | inl e => inl e
        | inr p => plan rest i.+1 n (send ++ nseq w.-1 p) recv
        end
      else plan rest i.+1 n send recv
  end.

(** [self.walkers[i]] *)
Definition getitem (l : seq Walker) (i : nat) : Py.exn + Walker :=
  if drop i l is w :: _ then inr w else inl Py.IndexError.

(** First exchange loop: the buffers this process sends. *)
Fixpoint pack (rank : nat) (l : seq Walker)
    (pairs : seq ((nat * nat) * (nat * nat))) : Py.exn + seq (B * R) :=
  match pairs with
  | [::] => inr [::]
  | (s, _) :: pairs' =>
      if s.1 == rank then
        match getitem l s.2 with
        | inl e => inl e
        | inr w =>
            match pack rank l pairs' with
            | inl e => inl e
            | inr bs => inr (get_buffer w :: bs)
            end
        end
      else pack rank l pairs'
  end.

(** Second exchange loop without mpi4py: [walker_buffers[i]] goes to
    [self.walkers[r[1]]].  On failure the walkers are returned as they are
    at that point. *)
Fixpoint unpack (buffers : seq (B * R)) (i : nat)
    (pairs : seq ((nat * nat) * (nat * nat))) (l : seq Walker)
    : Py.exn * seq Walker + seq Walker :=
  match pairs with
  | [::] => inr l
  | (_, r) :: pairs' =>
      match drop i buffers, getitem l r.2 with
      | b :: _, inr w => unpack buffers i.+1 pairs' (set_nth w l r.2 (set_buffer b w))
      | _, _ => inl (Py.IndexError, l)
      end
  end.

(** [Walkers.comb(self, comm)] on the single process of a run without
    mpi4py: rank 0 of 1, the gather is a copy. *)
Definition comb : Py.M (Walkers * Rng.state R) unit :=
  fun st =>
    let (ws, g) := st in
    if ntot_walkers ws == 1%N then
      match walkers ws with
      | w :: l => Py.Ok tt (set_walkers (set_weight 1 w :: l) ws, g)
      | [::] => Py.Raise Py.IndexError st
      end
    else
      let global_weights := [seq `|weight w| | w <- walkers ws] in
      let total_weight := Np.pysum global_weights in
      let ntarget := (nw ws * 1)%N in
      let (r, g') := Rng.random g in
      match comb_counts global_weights ntarget r with
      | inl e => Py.Raise e (ws, g')
      | inr parent_ix =>
          let l0 := set_total_weight total_weight (walkers ws) in
          match plan parent_ix 0 (nw ws) [::] [::] with
          | inl e => Py.Raise e (set_walkers l0 ws, g')
          | inr (send, recv) =>
              match pack 0 l0 (zip send recv) with
              | inl e => Py.Raise e (set_walkers l0 ws, g')
              | inr buffers =>
                  match unpack buffers 0 (zip send recv) l0 with
                  | inl (e, l1) => Py.Raise e (set_walkers l1 ws, g')
                  | inr l1 =>
                      Py.Ok tt (set_walkers [seq set_weight 1 w | w <- l1] ws, g')
                  end
              end
          end
      end.

End Handler.
End Handler.

(** ** pauxy/thermal_propagation/hubbard.py: class ThermalDiscrete *)

Module ThermalDiscrete.
Section ThermalDiscrete.
(** Weights are real, Green's functions may be complex. *)
Variable R : realFieldType.
Variable C : fieldType.
(** [z.real] and [numpy.exp] on the energy shift. *)
Variable re : C -> R.
Variable exp : R -> R.
(** The propagator stack of a thermal walker, whose class is outside the
    sources: [stack.update(B)], [stack.time_slice], [stack.ntime_slices],
    and the recomputation [walker.greens_function(None, slice)]. *)
Variable St : Type.
Variable stack_update : (bool -> nat -> nat -> C) -> St -> St.
Variable time_slice : St -> nat.
Variable ntime_slices : St -> nat.
Variable greens_function : St -> int -> bool -> nat -> nat -> C.

(** Arrays indexed [spin, i, j]; a field value [xi] in {0, 1} and a spin in
    {0, 1} are booleans ([false] is 0). *)
Definition gf : Type := bool -> nat -> nat -> C.

Record Walker : Type := mkWalker { weight : R; G : gf; stack : St }.

Record Propagator : Type := mkPropagator {
  nbasis : nat;
  delta : bool -> bool -> C;
  auxf : bool -> bool -> C;
  BH1 : gf;
  BT : gf;
  BT_inv : gf;
  nstblz : nat
}.

(** [self.BV], an array [spin, i] kept on the propagator between calls. *)
Definition bv : Type := bool -> nat -> C.

Variable p : Propagator.

(** [A.dot(B)] on [nbasis] x [nbasis] arrays. *)
Definition dot (A B : nat -> nat -> C) : nat -> nat -> C :=
  fun i j => \sum_(k <- iota 0 (nbasis p)) A i k * B k j.

(** [ThermalDiscrete.calculate_overlap_ratio(walker, i)] *)
Definition calculate_overlap_ratio (g : gf) (i : nat) : C * C :=
  let R1_up := 1 + (1 - g false i i) * delta p false false in
  let R1_dn := 1 + (1 - g true i i) * delta p false true in
  let R2_up := 1 + (1 - g false i i) * delta p true false in
  let R2_dn := 1 + (1 - g true i i) * delta p true true in
  (2^-1 * (R1_up * R1_dn), 2^-1 * (R2_up * R2_dn)).

(** [ThermalDiscrete.estimate_eshift(walker)] *)
Definition estimate_eshift (g : gf) : C :=
  let oratio := calculate_overlap_ratio g 0 in oratio.1 + oratio.2.

(** One spin of [ThermalDiscrete.update_greens_function(walker, i, xi)]. *)
Definition update_spin (xi : bool) (i : nat) (spin : bool)
    (g : nat -> nat -> C) : nat -> nat -> C :=
  let gcol := fun a => g a i in
  let gbar := fun b => - g i b + (b == i)%:R in
  let denom := 1 + (1 - gcol i) * delta p xi spin in
  fun a b => g a b - delta p xi spin * (gcol a * gbar b) / denom.

(** [ThermalDiscrete.update_greens_function(walker, i, xi)] *)
Definition update_greens_function (i : nat) (xi : bool) (g : gf) : gf :=
  fun spin => update_spin xi i spin (g spin).

(** [ThermalDiscrete.propagate_greens_function(walker)] *)
Definition propagate_greens_function (w : Walker) : Walker :=
  if (time_slice (stack w) < ntime_slices (stack w))%N then
    mkWalker (weight w)
      (fun spin => dot (dot (BT p spin) (G w spin)) (BT_inv p spin))
      (stack w)
  else w.

(** The state a sweep works on: the walker, [self.BV], the generator. *)
Record sweep : Type := mkSweep {
  walker : Walker; BV : bv; rng : Rng.state R
}.

Definition set_bv (i : nat) (xi : bool) (b : bv) : bv :=
  fun spin j => if j == i then auxf p xi spin else b spin j.

(** The body of the site loop of [propagate_walker_constrained]. *)
Definition constrained_site (eshift : R) (i : nat) (s : sweep) : sweep :=
  let w := walker s in
  let probs := calculate_overlap_ratio (G w) i in
  let phaseless_ratio := (Num.max (re probs.1) 0, Num.max (re probs.2) 0) in
  let norm := phaseless_ratio.1 + phaseless_ratio.2 in
  let (r, g') := Rng.random (rng s) in
  if 0 < norm then
    let xi := ~~ (r < phaseless_ratio.1 / norm) in
    mkSweep
      (mkWalker (weight w * norm * exp eshift)
                (update_greens_function i xi (G w)) (stack w))
      (set_bv i xi (BV s)) g'
  else
    mkSweep (mkWalker 0 (G w) (stack w)) (BV s) g'.

(** [for i in range(0, system.nbasis): ...] *)
Definition constrained_sites (eshift : R) (s : sweep) : sweep :=
  foldl (fun s i => constrained_site eshift i s) s (iota 0 (nbasis p)).

(** [numpy.einsum('ki,kij->kij', self.BV, self.BH1)] *)
Definition einsum_BV_BH1 (b : bv) : gf :=
  fun spin i j => b spin i * BH1 p spin i j.

(** What follows the site loop (also in the free-projection variant):
    push the slice on the stack, recompute the Green's function every
    [nstblz] slices, move it to the next slice. *)
Definition finish_slice (guard : bool) : Py.M sweep unit :=
  fun s =>
    let w := walker s in
    let st := stack_update (einsum_BV_BH1 (BV s)) (stack w) in
    let s1 := mkSweep (mkWalker (weight w) (G w) st) (BV s) (rng s) in
    if nstblz p is 0%N then Py.Raise Py.ZeroDivisionError s1
    else
      let w1 :=
        if (time_slice st %% nstblz p == 0)%N && guard then
          mkWalker (weight w) (greens_function st (Posz (time_slice st) - 1)) st
        else mkWalker (weight w) (G w) st in
      Py.Ok tt (mkSweep (propagate_greens_function w1) (BV s) (rng s)).

(** [ThermalDiscrete.propagate_walker_constrained(system, walker, time_slice, eshift)] *)
Definition propagate_walker_constrained (eshift : R) : Py.M sweep unit :=
  fun s => finish_slice true (constrained_sites eshift s).

End ThermalDiscrete.
End ThermalDiscrete.

(** ** pauxy/walker.py: class FieldConfig *)

Module FieldConfig.
Section FieldConfig.
(** Field values ([dtype]), cosine factors, weight factors. *)
Variables (F : Type) (R : Type) (C : Type).
Variables (zeroF : F) (zeroR : R) (zeroC : C).

Record t : Type := mk {
  configs : seq (seq F);
  cos_fac : seq R;
  weight_fac : seq C;
  step : nat;
  block : int;
  ib : nat;
  nfields : nat;
  nbp : nat;
  nprop_tot : nat;
  nblock : nat
}.

(** [FieldConfig.__init__(self, nfields, nprop_tot, nbp, dtype)] *)
Definition init (nfields nprop_tot nbp : nat) : Py.exn + t :=
  if nbp is 0%N then inl Py.ZeroDivisionError
  else inr (mk (nseq nprop_tot (nseq nfields zeroF)) (nseq nprop_tot zeroR)
               (nseq nprop_tot zeroC) 0 (-1) 0 nfields nbp nprop_tot
               (nprop_tot %/ nbp)).

(** [(self.block + 1) % self.nblock] *)
Definition next_block (b : int) (nblock : nat) : Py.exn + int :=
  if nblock is 0%N then inl Py.ZeroDivisionError
  else inr (modz (b + 1) (Posz nblock)).

(** The two lines that close a step: a new block starts every [nbp] steps. *)
Definition advance (fc : t) (cfg : seq (seq F)) (cf : seq R) (wf : seq C)
    (ib' : nat) : Py.exn + t :=
  if nprop_tot fc is 0%N then inl Py.ZeroDivisionError
  else
    let step' := ((step fc).+1 %% nprop_tot fc)%N in
    if nbp fc is 0%N then inl Py.ZeroDivisionError
    else if (step' %% nbp fc == 0)%N then
      match next_block (block fc) (nblock fc) with
      | inl e => inl e
      | inr b => inr (mk cfg cf wf step' b ib' (nfields fc) (nbp fc)
                         (nprop_tot fc) (nblock fc))
      end
    else inr (mk cfg cf wf step' (block fc) ib' (nfields fc) (nbp fc)
                 (nprop_tot fc) (nblock fc)).

(** [FieldConfig.push(self, config)]: one field value at a time. *)
Definition push (config : F) (fc : t) : Py.exn + t :=
  if ((step fc < size (configs fc)) && (ib fc < nfields fc))%N then
    let row := set_nth zeroF (nth [::] (configs fc) (step fc)) (ib fc) config in
    let cfg := set_nth [::] (configs fc) (step fc) row in
    let ib' := ((ib fc).+1 %% nfields fc)%N in
    if ib' == 0%N then advance fc cfg (cos_fac fc) (weight_fac fc) ib'
    else inr (mk cfg (cos_fac fc) (weight_fac fc) (step fc) (block fc) ib'
                 (nfields fc) (nbp fc) (nprop_tot fc) (nblock fc))
  else inl Py.IndexError.

(** [FieldConfig.push_full(self, config, cfac, wfac)]: a whole step. *)
Definition push_full (config : seq F) (cfac : R) (wfac : C) (fc : t)
    : Py.exn + t :=
  if (step fc < size (configs fc))%N then
    advance fc (set_nth [::] (configs fc) (step fc) config)
      (set_nth zeroR (cos_fac fc) (step fc) cfac)
      (set_nth zeroC (weight_fac fc) (step fc) wfac) (ib fc)
  else inl Py.IndexError.

(** [a[start:end]] with Python's treatment of negative and large bounds. *)
Definition clamp (n : nat) (i : int) : nat :=
  match i with
  | Posz k => minn k n
  | Negz k => (n - k.+1)%N
  end.

Definition pyslice {T} (start stop : int) (l : seq T) : seq T :=
  let a := clamp (size l) start in
  let b := clamp (size l) stop in
  take (b - a) (drop a l).

(** [FieldConfig.get_block(self)] *)
Definition get_block (fc : t) : seq (seq F) * seq R * seq C :=
  let start := block fc * Posz (nbp fc) in
  let stop := (block fc + 1) * Posz (nbp fc) in
  (pyslice start stop (configs fc), pyslice start stop (cos_fac fc),
   pyslice start stop (weight_fac fc)).

(** [FieldConfig.get_superblock(self)] *)
Definition get_superblock (fc : t) : seq (seq F) * seq R * seq C :=
  let stop := Posz (nprop_tot fc) - Posz (nbp fc) in
  (pyslice 0 stop (configs fc), pyslice 0 stop (cos_fac fc),
   pyslice 0 stop (weight_fac fc)).

End FieldConfig.
End FieldConfig.

(** ** pauxy/propagation/continuous.py: class Continuous *)

Module Continuous.
Section Continuous.
Variable R : realFieldType.
Variable C : fieldType.
Variable conj : C -> C.
Variables nbasis nup ndown nfields : nat.

Notation Walker := (SingleDet.Walker R C nbasis nup ndown).
Notation wfn := (SingleDet.wfn C nbasis nup ndown).
Notation vec := 'rV[C]_nfields.
Notation fconf := (FieldConfig.t C R C).

(** The numeric library, as the calls of this file use it.  [cmath.log],
    [cmath.exp], [cmath.polar] and [math.cos] can raise; [normal] is the
    sample [numpy.random.normal] makes of one raw draw, [expi x] is
    [cmath.exp(1j*x)]. *)
Variable clog : C -> Py.exn + C.
Variable cexp : C -> Py.exn + C.
Variable polar : C -> Py.exn + R * R.
Variable cphase : C -> R.
Variable cos : R -> Py.exn + R.
Variable isinf : R -> bool.
Variable absolute : C -> R.
Variable of_real : R -> C.
Variable normal : R -> C.
Variable expi : R -> C.

(** The names the module binds at top level besides [Continuous].  The file
    has no import and no other definition, so as written none of these is
    bound; a name that is bound comes with its value. *)
Record Globals : Type := mkGlobals {
  g_numpy : bool;
  g_cmath : bool;
  g_math : bool;
  g_kinetic_real : option (wfn -> wfn);
  g_shifted : option vec
}.

Definition as_written : Globals := mkGlobals false false false None None.

(** The object behind [self.propagator]. *)
Record Hs : Type := mkHs {
  construct_force_bias : 'M[C]_nbasis * 'M[C]_nbasis -> vec;
  construct_VHS : vec -> 'M[C]_nbasis
}.

(** The attributes the methods read.  [__init__] assigns neither
    [propagator] nor [mf_shift]; they are present only if something else
    has set them on the instance. *)
Record Self : Type := mkSelf {
  free_projection : bool;
  exp_nmax : nat;
  sqrt_dt : C;
  mf_const_fac : C;
  propagator : option Hs;
  mf_shift : option vec
}.

Record state : Type := mkState {
  walker : Walker;
  phase : C;
  field_configs : fconf;
  rng : Rng.state R
}.

Definition set_walker (w : Walker) (s : state) : state :=
  mkState w (phase s) (field_configs s) (rng s).
Definition on_walker {A} (c : Py.M Walker A) : Py.M state A :=
  Py.zoom walker set_walker c.

(** Loading a global name, reading an attribute of [self]. *)
Definition load_global {S A} (name : string) (v : option A) : Py.M S A :=
  fun s => if v is Some a then Py.Ok a s else Py.Raise (Py.NameError name) s.
Definition load_module {S} (name : string) (bound : bool) : Py.M S unit :=
  fun s => if bound then Py.Ok tt s else Py.Raise (Py.NameError name) s.
Definition getattr {S A} (name : string) (v : option A) : Py.M S A :=
  fun s => if v is Some a then Py.Ok a s else Py.Raise (Py.AttributeError name) s.

(** [u.dot(v)] on one-dimensional arrays. *)
Definition vdot (u v : vec) : C := (u *m v^T) 0 0.

(** [Continuous.apply_exponential(self, phi, VHS)]: the Taylor sum
    [phi + VHS phi + VHS^2 phi / 2! + ...] up to [exp_nmax]. *)
Fixpoint taylor k (VHS : 'M[C]_nbasis) (n : nat) (steps : nat)
    (temp phi : 'M[C]_(nbasis, k)) : 'M[C]_(nbasis, k) :=
  match steps with
  | 0%N => phi
  | steps'.+1 =>
      let temp' := n%:R^-1 *: (VHS *m temp) in
      taylor VHS n.+1 steps' temp' (phi + temp')
  end.

Definition apply_exponential k (self : Self) (phi : 'M[C]_(nbasis, k))
    (VHS : 'M[C]_nbasis) : 'M[C]_(nbasis, k) :=
  taylor VHS 1 (exp_nmax self) phi phi.

(** [xbar[i] /= numpy.absolute(xbar[i])] where the magnitude is above 1. *)
Definition rescale (xbar : vec) : vec :=
  \row_i (if absolute (xbar 0 i) > 1 then xbar 0 i / of_real (absolute (xbar 0 i))
          else xbar 0 i).

(** [numpy.random.normal(0.0, 1.0, system.nfields)] *)
Definition draw_normal : Py.M state vec :=
  fun s =>
    let g := rng s in
    Py.Ok (\row_(i < nfields) normal (Rng.stream g (Rng.pos g + i)))
          (mkState (walker s) (phase s) (field_configs s)
             (Rng.mk (Rng.stream g) (Rng.pos g + nfields))).

(** [Continuous.two_body_propagator(self, walker, system, force_bias)] *)
Definition two_body_propagator (gl : Globals) (self : Self)
    (force_bias : bool) : Py.M state (C * C * vec) :=
  load_module "numpy" (g_numpy gl) ;;
  xi <-- draw_normal ;;
  xbar <-- (if force_bias then
              hs <-- getattr "propagator" (propagator self) ;;
              s <-- Py.get ;;
              Py.ret (construct_force_bias hs (SingleDet.G (walker s)))
            else Py.ret 0) ;;
  let xbar := rescale xbar in
  let xshifted := xi - xbar in
  shifted <-- load_global "shifted" (g_shifted gl) ;;
  mf <-- getattr "mf_shift" (mf_shift self) ;;
  let cmf := - sqrt_dt self * vdot shifted mf in
  let cfb := vdot xi xbar - 2^-1 * vdot xbar xbar in
  hs <-- getattr "propagator" (propagator self) ;;
  let VHS := construct_VHS hs xshifted in
  s <-- Py.get ;;
  let w := walker s in
  let up := apply_exponential self (lsubmx (SingleDet.phi w)) VHS in
  Py.put (set_walker (SingleDet.set_phi (row_mx up (rsubmx (SingleDet.phi w))) w) s) ;;
  (if (0 < ndown)%N then
     if ndown == nup then
       s <-- Py.get ;;
       let w := walker s in
       let dn := apply_exponential self (rsubmx (SingleDet.phi w)) VHS in
       Py.put (set_walker
                 (SingleDet.set_phi (row_mx (lsubmx (SingleDet.phi w)) dn) w) s)
     else Py.raise Py.ValueError
   else Py.ret tt) ;;
  Py.ret (cmf, cfb, xshifted).

(** [kinetic_real(walker.phi, system, self.BH1)] *)
Definition kinetic (gl : Globals) : Py.M state unit :=
  k <-- load_global "kinetic_real" (g_kinetic_real gl) ;;
  s <-- Py.get ;;
  Py.put (set_walker (SingleDet.set_phi (k (SingleDet.phi (walker s))) (walker s)) s).

Definition set_weight (x : R) (s : state) : state :=
  set_walker (SingleDet.set_weight x (walker s)) s.
Definition set_ot (x : C) (s : state) : state :=
  set_walker (SingleDet.set_ot x (walker s)) s.

(** [walker.field_configs.push_full(config, cfac, wfac)] *)
Definition push_full (config : vec) (cfac : R) (wfac : C) : Py.M state unit :=
  fun s =>
    match FieldConfig.push_full 0 0 [seq config 0 i | i <- enum 'I_nfields]
            cfac wfac (field_configs s) with
    | inl e => Py.Raise e s
    | inr fc => Py.Ok tt (mkState (walker s) (phase s) fc (rng s))
    end.

(** Lines 168-191 of [propagate_walker_phaseless]: the hybrid phaseless
    weight update, given what [two_body_propagator] returned. *)
Definition phaseless_update (gl : Globals) (self : Self) (trial : wfn)
    (cmf cfb : C) (xmxbar : vec) : Py.M state unit :=
  on_walker (SingleDet.inverse_overlap conj trial) ;;
  on_walker (SingleDet.greens_function conj trial) ;;
  s <-- Py.get ;;
  let ot_new := SingleDet.calc_otrial (walker s) in
  load_module "cmath" (g_cmath gl) ;;
  l_new <-- Py.lift (clog ot_new) ;;
  l_old <-- Py.lift (clog (SingleDet.ot (walker s))) ;;
  let hybrid_energy := l_new - l_old + cfb + cmf in
  e <-- Py.lift (cexp hybrid_energy) ;;
  let importance_function := mf_const_fac self * e in
  mp <-- Py.lift (polar importance_function) ;;
  let magn := mp.1 in
  load_module "math" (g_math gl) ;;
  if ~~ isinf magn then
    e' <-- Py.lift (cexp (hybrid_energy - cfb)) ;;
    let dtheta := cphase e' in
    cs <-- Py.lift (cos dtheta) ;;
    let cosine_fac := Num.max 0 cs in
    Py.modify (set_weight (SingleDet.weight (walker s) * (magn * cosine_fac))) ;;
    Py.modify (set_ot ot_new) ;;
    push_full xmxbar cosine_fac (importance_function / of_real magn)
  else
    Py.modify (set_ot ot_new) ;;
    Py.modify (set_weight 0) ;;
    push_full xmxbar 0 0.

(** [Continuous.propagate_walker_phaseless(self, walker, system, trial)] *)
Definition propagate_walker_phaseless (gl : Globals) (self : Self)
    (trial : wfn) : Py.M state unit :=
  kinetic gl ;;
  r <-- two_body_propagator gl self true ;;
  kinetic gl ;;
  phaseless_update gl self trial r.1.1 r.1.2 r.2.

(** [Continuous.propagate_walker_free(self, walker, system, trial)] *)
Definition propagate_walker_free (gl : Globals) (self : Self)
    (trial : wfn) : Py.M state unit :=
  kinetic gl ;;
  r <-- two_body_propagator gl self false ;;
  kinetic gl ;;
  on_walker (SingleDet.inverse_overlap conj trial) ;;
  s <-- Py.get ;;
  Py.modify (set_ot (SingleDet.calc_otrial (walker s))) ;;
  on_walker (SingleDet.greens_function conj trial) ;;
  load_module "cmath" (g_cmath gl) ;;
  e <-- Py.lift (cexp r.1.1) ;;
  mp <-- Py.lift (polar e) ;;
  s <-- Py.get ;;
  Py.put (mkState (SingleDet.set_weight (SingleDet.weight (walker s) * mp.1) (walker s))
            (phase s * expi mp.2) (field_configs s) (rng s)).

End Continuous.
End Continuous.

(** * Theorems *)

Section ShermanMorrison.
Variable C : fieldType.
Variable n : nat.
Implicit Types (A : 'M[C]_n) (u vt : 'rV[C]_n).

Lemma sherman_morrison_right A u vt :
  A \in unitmx -> 1 + Linalg.vMv vt (invmx A) u != 0 ->
  (A + Linalg.outer u vt) *m Linalg.sherman_morrison (invmx A) u vt = 1%:M.
Proof.
move=> uA nz; rewrite /Linalg.sherman_morrison /Linalg.outer.
move: nz; rewrite /Linalg.vMv; set l := (_ *m _ *m _) 0 0 => nz.
have El : vt *m invmx A *m u^T = l%:M by rewrite [LHS]mx11_scalar.
set B := invmx A.
have -> : B *m (u^T *m vt) *m B = (B *m u^T) *m (vt *m B) by rewrite !mulmxA.
rewrite mulmxBr -scalemxAr !mulmxDl mulmxV //.
have -> : A *m (B *m u^T *m (vt *m B)) = u^T *m (vt *m B).
  by rewrite !mulmxA mulmxV // mul1mx.
have -> : u^T *m vt *m (B *m u^T *m (vt *m B)) = l *: (u^T *m (vt *m B)).
  rewrite -[B *m u^T *m _]mulmxA -[u^T *m vt *m _]mulmxA.
  rewrite [vt *m (_ *m _)]mulmxA [vt *m _ *m _]mulmxA El.
  by rewrite mul_scalar_mx -scalemxAr.
rewrite -[u^T *m vt *m B]mulmxA -[X in _ *: (X + _)]scale1r -scalerDl.
by rewrite scalerA mulVf // scale1r addrK.
Qed.

Lemma sherman_morrison_inv A u vt :
  A \in unitmx -> 1 + Linalg.vMv vt (invmx A) u != 0 ->
  (A + Linalg.outer u vt \in unitmx) /\
  Linalg.sherman_morrison (invmx A) u vt = invmx (A + Linalg.outer u vt).
Proof.
move=> uA nz; have E := sherman_morrison_right uA nz.
have [uB _] := mulmx1_unit E; split=> //.
by rewrite -[LHS]mul1mx -(mulVmx uB) -mulmxA E mulmx1.
Qed.

End ShermanMorrison.

Section InverseOverlap.
Variable R : Type.
Variable C : fieldType.
Variable conj : C -> C.
Variables nbasis nup ndown : nat.
Notation Walker := (SingleDet.Walker R C nbasis nup ndown).
Notation wfn := (SingleDet.wfn C nbasis nup ndown).

Lemma trmx_mul_delta k (T : 'M[C]_(nbasis, k)) (i : 'I_nbasis) :
  T^T *m delta_mx i 0 = (row i T)^T.
Proof. by rewrite rowE trmx_mul trmx_delta. Qed.

(** A change of row [i] of the amplitude is a rank-one change of the overlap. *)
Lemma overlap_site_change k (T p : 'M[C]_(nbasis, k)) i (vt : 'rV[C]_k) :
  SingleDet.overlap conj T (p + delta_mx i 0 *m vt)
  = SingleDet.overlap conj T p + Linalg.outer (map_mx conj (row i T)) vt.
Proof.
rewrite /SingleDet.overlap /Linalg.outer mulmxDr mulmxA trmx_mul_delta.
by rewrite map_row.
Qed.

Lemma inverse_overlapE (trial : wfn) (w : Walker) :
  SingleDet.inverse_overlap conj trial w =
  match Linalg.inv (SingleDet.overlap conj (lsubmx trial) (lsubmx (SingleDet.phi w))),
        Linalg.inv (SingleDet.overlap conj (rsubmx trial) (rsubmx (SingleDet.phi w))) with
  | inr up, inr dn =>
      Py.Ok tt (SingleDet.set_inv_ovlp_down dn (SingleDet.set_inv_ovlp_up up w))
  | inr up, inl e => Py.Raise e (SingleDet.set_inv_ovlp_up up w)
  | inl e, _ => Py.Raise e w
  end.
Proof.
rewrite /SingleDet.inverse_overlap /Py.bind /Py.get /Py.lift /Py.modify /=.
by case: (Linalg.inv _) => [e|up] //=; case: (Linalg.inv _).
Qed.

End InverseOverlap.

(** C1. The formula of [sherman_morrison] is the inverse of the rank-one
    update: for an invertible [A] and [1 + v A^-1 u <> 0],
    [sherman_morrison (A^-1) u v = (A + u v^T)^-1].  Consequently, on a walker
    whose stored inverse overlaps are those of its amplitude, and whose
    amplitude then has the rows of one site [i] shifted by [vtup], [vtdown],
    [update_inverse_overlap] leaves the walker in exactly the state a full
    recomputation by [inverse_overlap] on the changed amplitude does (both
    spin blocks), and that recomputation does not fail. *)
Theorem update_inverse_overlap_is_recompute
    (R : Type) (C : fieldType) (conj : C -> C) (nbasis nup ndown : nat)
    (trial : SingleDet.wfn C nbasis nup ndown)
    (w : SingleDet.Walker R C nbasis nup ndown) (i : 'I_nbasis)
    (vtup : 'rV[C]_nup) (vtdown : 'rV[C]_ndown) :
  let Oup := SingleDet.overlap conj (lsubmx trial) (lsubmx (SingleDet.phi w)) in
  let Odn := SingleDet.overlap conj (rsubmx trial) (rsubmx (SingleDet.phi w)) in
  let w' := SingleDet.set_phi
              (SingleDet.site_change i vtup vtdown (SingleDet.phi w)) w in
  Oup \in unitmx -> Odn \in unitmx ->
  SingleDet.inv_ovlp w = (invmx Oup, invmx Odn) ->
  1 + Linalg.vMv vtup (invmx Oup) (map_mx conj (row i (lsubmx trial))) != 0 ->
  1 + Linalg.vMv vtdown (invmx Odn) (map_mx conj (row i (rsubmx trial))) != 0 ->
  (forall n (A : 'M[C]_n) (u vt : 'rV[C]_n),
      A \in unitmx -> 1 + Linalg.vMv vt (invmx A) u != 0 ->
      Linalg.sherman_morrison (invmx A) u vt = invmx (A + Linalg.outer u vt))
  /\ SingleDet.update_inverse_overlap conj trial vtup vtdown i w'
     = SingleDet.inverse_overlap conj trial w'
  /\ Py.returns (SingleDet.inverse_overlap conj trial w').
Proof.
move=> Oup Odn w' uUp uDn Einv nzUp nzDn; split.
  by move=> n A u vt uA nz; have [] := sherman_morrison_inv uA nz.
have [uUp' EUp] := sherman_morrison_inv uUp nzUp.
have [uDn' EDn] := sherman_morrison_inv uDn nzDn.
rewrite inverse_overlapE /w' /SingleDet.site_change /=.
rewrite !linearD /= row_mxKl row_mxKr !overlap_site_change -/Oup -/Odn.
rewrite /Linalg.inv uUp' uDn' /=; split=> //.
rewrite /SingleDet.update_inverse_overlap /Py.bind /Py.get /Py.modify /=.
by rewrite Einv /= EUp EDn.
Qed.

Definition c1_trial : SingleDet.wfn rat 1 1 1 := row_mx 1%:M 1%:M.
Definition c1_walker : SingleDet.Walker rat rat 1 1 1 :=
  SingleDet.mkWalker 1 true c1_trial
    (invmx (SingleDet.overlap id (lsubmx c1_trial) (lsubmx c1_trial)),
     invmx (SingleDet.overlap id (rsubmx c1_trial) (rsubmx c1_trial)))
    (0, 0) 1.

Lemma c1_overlap_up :
  SingleDet.overlap id (lsubmx c1_trial) (lsubmx c1_trial) = 1%:M.
Proof.
rewrite /SingleDet.overlap /c1_trial row_mxKl mulmx1.
by apply/matrixP=> a b; rewrite !mxE eq_sym.
Qed.

Lemma c1_overlap_down :
  SingleDet.overlap id (rsubmx c1_trial) (rsubmx c1_trial) = 1%:M.
Proof.
rewrite /SingleDet.overlap /c1_trial row_mxKr mulmx1.
by apply/matrixP=> a b; rewrite !mxE eq_sym.
Qed.

Lemma c1_ratio (T : 'M[rat]_1) :
  T = 1%:M -> 1 + Linalg.vMv (1%:M : 'rV_1) (invmx 1%:M) (map_mx id (row 0 T)) != 0.
Proof.
move=> ->; rewrite /Linalg.vMv invmx1 mulmx1 mul1mx.
by rewrite !mxE /=.
Qed.

Lemma update_inverse_overlap_is_recompute_witness :
  let w' := SingleDet.set_phi
              (SingleDet.site_change 0 1%:M 1%:M c1_trial) c1_walker in
  SingleDet.update_inverse_overlap id c1_trial 1%:M 1%:M 0 w'
    = SingleDet.inverse_overlap id c1_trial w'
  /\ Py.returns (SingleDet.inverse_overlap id c1_trial w').
Proof.
have [] := @update_inverse_overlap_is_recompute rat rat id 1 1 1
             c1_trial c1_walker 0 1%:M 1%:M.
- by rewrite /= c1_overlap_up unitmx1.
- by rewrite /= c1_overlap_down unitmx1.
- by [].
- by rewrite /= c1_overlap_up; apply: c1_ratio; rewrite /c1_trial row_mxKl.
- by rewrite /= c1_overlap_down; apply: c1_ratio; rewrite /c1_trial row_mxKr.
by move=> _ [].
Defined.

Section EnsembleInit.
Variable R : realFieldType.
Variable C : fieldType.
Variable conj : C -> C.
Variables nbasis nup ndown : nat.
Notation wfn := (SingleDet.wfn C nbasis nup ndown).
Notation Walkers := (Ensemble.Walkers R C nbasis nup ndown).

Lemma get_lookup (d : Config.dict R) key default :
  Config.get d key default = odflt default (Config.lookup d key).
Proof. by elim: d => [|[k v] d IH] //=; case: (String.eqb k key). Qed.

Lemma init_thresholds inputs (trial phi0 : wfn) nwalkers (ws : Walkers) :
  Ensemble.init conj inputs trial phi0 nwalkers = inr ws ->
  Ensemble.wmin ws = Config.get inputs "max_weight" (Config.Num (5 / 100))
  /\ Ensemble.wmax ws = Config.get inputs "max_weight" (Config.Num 4).
Proof.
rewrite /Ensemble.init; case: nwalkers => [|n]; first by case=> <-.
by case: (SingleDet.init _ _ _ _) => // w [<-].
Qed.

(** C9. The minimum-weight threshold of a constructed ensemble is whatever
    the options hold under the key "max_weight", with default 0.05; the
    maximum threshold is read from the same key with default 4.0.  So when
    the options supply "max_weight", both thresholds are that value; and the
    minimum threshold depends on the options through that key alone: two
    option sets that agree on "max_weight" give the same [wmin], whatever
    they hold under "min_weight" or any other key. *)
Theorem wmin_is_read_from_max_weight
    inputs (trial phi0 : wfn) nwalkers (ws : Walkers) :
  Ensemble.init conj inputs trial phi0 nwalkers = inr ws ->
  Ensemble.wmin ws = Config.get inputs "max_weight" (Config.Num (5 / 100))
  /\ (forall v, Config.lookup inputs "max_weight" = Some v ->
        Ensemble.wmin ws = v /\ Ensemble.wmax ws = v)
  /\ (Config.lookup inputs "max_weight" = None ->
        Ensemble.wmin ws = Config.Num (5 / 100)
        /\ Ensemble.wmax ws = Config.Num 4)
  /\ (forall inputs' trial' phi0' nwalkers' (ws' : Walkers),
        Config.lookup inputs' "max_weight" = Config.lookup inputs "max_weight" ->
        Ensemble.init conj inputs' trial' phi0' nwalkers' = inr ws' ->
        Ensemble.wmin ws' = Ensemble.wmin ws)
  /\ (forall x trial' phi0' nwalkers' (ws' : Walkers),
        Ensemble.init conj (("min_weight"%string, x) :: inputs)
          trial' phi0' nwalkers' = inr ws' ->
        Ensemble.wmin ws' = Ensemble.wmin ws).
Proof.
move=> /init_thresholds [Emin Emax]; split=> //; split; last split; last split.
- by move=> v Ev; rewrite Emin Emax !get_lookup Ev.
- by move=> Ev; rewrite Emin Emax !get_lookup Ev.
- move=> inputs' trial' phi0' nwalkers' ws' Ev /init_thresholds [-> _].
  by rewrite Emin !get_lookup Ev.
- by move=> x trial' phi0' nwalkers' ws' /init_thresholds [-> _]; rewrite Emin.
Qed.

End EnsembleInit.

Lemma c1_init :
  exists w, SingleDet.init id (1 : rat) c1_trial c1_trial = inr w.
Proof.
rewrite /SingleDet.init /Py.run /Py.bind inverse_overlapE /=.
rewrite c1_overlap_up c1_overlap_down /Linalg.inv unitmx1 /=.
by eexists.
Defined.

Definition c9_inputs : Config.dict rat :=
  [:: ("max_weight"%string, Config.Num (2 : rat))].

Lemma wmin_is_read_from_max_weight_witness :
  exists ws, Ensemble.init id c9_inputs c1_trial c1_trial 2 = inr ws
    /\ Ensemble.wmin ws = Config.Num 2 /\ Ensemble.wmax ws = Config.Num 2.
Proof.
have [w Ew] := c1_init.
have [ws Ews] : exists ws, Ensemble.init id c9_inputs c1_trial c1_trial 2 = inr ws.
  by rewrite /Ensemble.init Ew; eexists.
exists ws; split=> //.
have [_ [H _]] := wmin_is_read_from_max_weight Ews.
exact: (H (Config.Num 2)).
Defined.

Section Rescale.
Variable R : realFieldType.
Variable C : fieldType.
Variables nbasis nup ndown : nat.
Variable floor : R -> int.
Notation Walker := (SingleDet.Walker R C nbasis nup ndown).
Notation Walkers := (Ensemble.Walkers R C nbasis nup ndown).
Implicit Types (l : seq Walker) (ws : Walkers).

Lemma foldl_addr (a : R) xs : foldl +%R a xs = a + \sum_(x <- xs) x.
Proof.
elim: xs a => [|x xs IH] a /=; first by rewrite big_nil addr0.
by rewrite IH big_cons addrA.
Qed.

Lemma pysum_sum (xs : seq R) : Np.pysum xs = \sum_(x <- xs) x.
Proof. by rewrite /Np.pysum foldl_addr add0r. Qed.





End Rescale.



Section Branching.
Variable R : realFieldType.
Variable C : fieldType.
Variables nbasis nup ndown : nat.
Variable floor : R -> int.
Notation Walker := (SingleDet.Walker R C nbasis nup ndown).
Notation value := (Config.value R).

(** C6, as the code has it.  In the search loop of [branching], a walker
    whose (rescaled) weight [w] is not above [wmax] and is strictly below
    [wmin] is marked dead exactly when [w < r], where [r] is its uniform
    draw: the threshold [wmin] gates the test but does not scale it.  Its
    weight is left as it is, and its index is recorded for reuse exactly
    when it is marked dead.  For [r] uniform on [0,1) and [0 <= w <= 1] the
    set of draws that kill is the interval (w, 1), of length [1 - w]. *)
Theorem branching_kills_below_draw
    (wmax wmin : R) (i : nat) (r : R) (w : Walker) (m : Ensemble.marks) :
  SingleDet.weight w <= wmax -> SingleDet.weight w < wmin ->
  exists w' m',
    Ensemble.branch_one floor (Config.Num wmax) (Config.Num wmin) i r w m
      = inr (w', m')
    /\ SingleDet.alive w' = SingleDet.alive w && ~~ (SingleDet.weight w < r)
    /\ SingleDet.weight w' = SingleDet.weight w
    /\ Ensemble.ikill m'
       = (if SingleDet.weight w < r then rcons (Ensemble.ikill m) i
          else Ensemble.ikill m)
    /\ (0 <= SingleDet.weight w -> SingleDet.weight w <= 1 ->
        forall r', 0 <= r' < 1 ->
          (SingleDet.weight w < r') = (SingleDet.weight w < r' < 1)).
Proof.
move=> le_max lt_min; rewrite /Ensemble.branch_one /= ltNge le_max /= lt_min.
case: ifP => Hr.
  do 2!eexists; split; first by [].
  rewrite andbF /=; do !split=> //.
  by move=> _ _ r' /andP[_ ->]; rewrite andbT.
exists w, m; split=> //; rewrite andbT; do !split=> //.
by move=> _ _ r' /andP[_ ->]; rewrite andbT.
Qed.

Lemma branch_one_kill
    (wmax wmin : R) (i : nat) (r : R) (w : Walker) (m : Ensemble.marks) :
  SingleDet.weight w <= wmax -> SingleDet.weight w < wmin ->
  SingleDet.weight w < r ->
  Ensemble.branch_one floor (Config.Num wmax) (Config.Num wmin) i r w m
  = inr (SingleDet.set_alive false w,
         Ensemble.mkMarks (Ensemble.iclone m) (Ensemble.nclone m)
           (rcons (Ensemble.ikill m) i)).
Proof.
by move=> le_max lt_min lt_r; rewrite /Ensemble.branch_one /= ltNge le_max /= lt_min lt_r.
Qed.

End Branching.

Definition c6_walker : SingleDet.Walker rat rat 1 1 1 :=
  SingleDet.set_weight (1 / 100) c1_walker.

Definition no_marks : Ensemble.marks := Ensemble.mkMarks [::] [::] [::].

Lemma c6_weight : SingleDet.weight c6_walker = 1 / 100.
Proof. by []. Qed.

(** With the default thresholds, a walker of weight 0.01 and the draw 0.1:
    the draw is not above w/wmin = 0.2, yet the walker is marked dead. *)
Lemma branching_kill_probability_counterexample :
  let wmin : rat := 5 / 100 in
  let r : rat := 1 / 10 in
  SingleDet.weight c6_walker < wmin
  /\ 0 <= r < 1
  /\ ~~ (r > SingleDet.weight c6_walker / wmin)
  /\ Ensemble.branch_one ratArchimedean.floor (Config.Num 4) (Config.Num wmin)
       0 r c6_walker no_marks
     = inr (SingleDet.set_alive false c6_walker,
            Ensemble.mkMarks [::] [::] [:: 0%N]).
Proof.
move=> wmin r; rewrite c6_weight /wmin /r.
split; first by vm_compute.
split; first by vm_compute.
split; first by vm_compute.
by apply: branch_one_kill; rewrite c6_weight; vm_compute.
Qed.

Lemma branching_kills_below_draw_witness :
  exists w' m',
    Ensemble.branch_one ratArchimedean.floor (Config.Num 4)
      (Config.Num (5 / 100)) 0 (1 / 10) c6_walker no_marks = inr (w', m')
    /\ SingleDet.alive w' = false.
Proof.
have E1 : SingleDet.weight c6_walker <= 4 by rewrite c6_weight; vm_compute.
have E2 : SingleDet.weight c6_walker < 5 / 100 by rewrite c6_weight; vm_compute.
have E3 : (SingleDet.weight c6_walker < 1 / 10) = true by rewrite c6_weight; vm_compute.
have [w' [m' [E [A _]]]] :=
  @branching_kills_below_draw rat rat 1 1 1 ratArchimedean.floor
     4 (5 / 100) 0 (1 / 10) c6_walker no_marks E1 E2.
by exists w', m'; split=> //; rewrite A E3 andbF.
Defined.

(** ** The two comb assignments *)

Section CombAssign.
Variable R : realFieldType.
Variable B : Type.
Implicit Types (c w r : R) (cprobs comb gw : seq R) (p : seq nat).

(** The bucket of a tooth: the first position whose cumulative sum exceeds
    it ([size cprobs] when there is none). *)
Definition bucket cprobs c : nat := find (fun w => c < w) cprobs.

Definition bump p (j : nat) : seq nat := set_nth 0%N p j (nth 0%N p j).+1.

Lemma first_exceedingE c cprobs iw :
  Ensemble.first_exceeding c cprobs iw
  = if has (fun w => c < w) cprobs then Some (iw + bucket cprobs c)%N else None.
Proof.
elim: cprobs iw => [|w cprobs IH] iw //=.
case: ifP => _; first by rewrite addn0.
by rewrite IH; case: ifP => // _; rewrite /bucket addSnnS.
Qed.

Lemma size_bump p j : (j < size p)%N -> size (bump p j) = size p.
Proof. by move=> lt; rewrite size_set_nth; apply/maxn_idPr. Qed.

Lemma nth_bump p j k :
  nth 0%N (bump p j) k = (nth 0%N p k + (j == k))%N.
Proof.
rewrite /bump nth_set_nth /= eq_sym; case: eqP => [->|_]; last by rewrite addn0.
by rewrite addn1.
Qed.

Lemma size_foldl_bump (f : R -> nat) comb p :
  all (fun c => f c < size p)%N comb ->
  size (foldl (fun q c => bump q (f c)) p comb) = size p.
Proof.
elim: comb p => [|c comb IH] p //= /andP[lt Hall].
have Hall' : all (fun c' => f c' < size (bump p (f c)))%N comb.
  by apply: sub_all Hall => c' Hc'; rewrite size_bump.
by rewrite IH // size_bump.
Qed.

Lemma nth_foldl_bump (f : R -> nat) comb p k :
  nth 0%N (foldl (fun q c => bump q (f c)) p comb) k
  = (nth 0%N p k + count (fun c => f c == k) comb)%N.
Proof.
elim: comb p => [|c comb IH] p /=; first by rewrite addn0.
by rewrite IH nth_bump addnA.
Qed.

Lemma eq_in_foldl_bump (f g : R -> nat) comb p :
  {in comb, f =1 g} ->
  foldl (fun q c => bump q (f c)) p comb = foldl (fun q c => bump q (g c)) p comb.
Proof.
elim: comb p => [|c comb IH] p //= Hfg.
rewrite (Hfg c) ?mem_head // IH // => c' Hin.
by apply: Hfg; rewrite inE Hin orbT.
Qed.

Lemma comb_walk_done cprobs iw p : Handler.comb_walk cprobs iw [::] p = inr p.
Proof. by case: cprobs. Qed.

Lemma comb_walk_step w cprobs iw c comb p :
  Handler.comb_walk (w :: cprobs) iw (c :: comb) p
  = if c < w then
      match Np.incritem p iw with
      | inr p' => Handler.comb_walk (w :: cprobs) iw comb p'
      | inl e => inl e
      end
    else Handler.comb_walk cprobs iw.+1 (c :: comb) p.
Proof. by []. Qed.

Lemma bucket_cons w cprobs c :
  bucket (w :: cprobs) c = if c < w then 0%N else (bucket cprobs c).+1.
Proof. by []. Qed.

(** The counting loop, on sorted teeth that all fall in some bucket, bumps
    the bucket of each tooth. *)
Lemma comb_walk_buckets cprobs iw comb p :
  sorted <=%R comb -> all (fun c => has (fun w => c < w) cprobs) comb ->
  (iw + size cprobs <= size p)%N ->
  Handler.comb_walk cprobs iw comb p
  = inr (foldl (fun q c => bump q (iw + bucket cprobs c)) p comb).
Proof.
elim: cprobs iw comb p => [|w cprobs IH] iw comb p.
  by case: comb => [|c comb] //= _ /andP[].
elim: comb p => [|c comb IHc] p Hs Hall Hsz; first by rewrite comb_walk_done.
have Hiw : (iw < size p)%N by rewrite (leq_trans _ Hsz) // -addn1 leq_add2l.
rewrite comb_walk_step.
have -> : foldl (fun q c0 => bump q (iw + bucket (w :: cprobs) c0)) p (c :: comb)
        = foldl (fun q c0 => bump q (iw + bucket (w :: cprobs) c0))
            (bump p (iw + bucket (w :: cprobs) c)) comb by [].
rewrite [bucket (w :: cprobs) c]bucket_cons.
have /andP[Hc Hall'] : has (fun w' => c < w') (w :: cprobs)
    && all (fun c0 => has (fun w' => c0 < w') (w :: cprobs)) comb by [].
case: ifP => [lt|/negbT nlt].
  rewrite /Np.incritem Hiw addn0 IHc //.
  - exact: path_sorted Hs.
  - by rewrite size_set_nth; apply: leq_trans Hsz _; rewrite leq_max leqnn orbT.
have le_wc : w <= c by rewrite leNgt.
have Hmin : all (fun c' => ~~ (c' < w)) (c :: comb).
  rewrite /= nlt /=; have /= := order_path_min (@le_trans _ R) Hs.
  move=> Hle; apply: sub_all Hle => c' le_cc'.
  by rewrite -leNgt (le_trans le_wc).
have Hsz' : (iw.+1 + size cprobs <= size p)%N by rewrite addSnnS.
have Hall2 : all (fun c0 => has (fun w' => c0 < w') cprobs) (c :: comb).
  apply/allP=> c' Hin; move/allP: Hmin => /(_ c' Hin) /negbTE Hn.
  have : has (fun w' => c' < w') (w :: cprobs).
    move: Hin; rewrite inE => /orP[/eqP -> //|Hin].
    by move/allP: Hall' => /(_ _ Hin).
  by rewrite /= Hn.
rewrite (IH iw.+1 (c :: comb) p Hs Hall2 Hsz').
have -> : foldl (fun q c0 => bump q (iw.+1 + bucket cprobs c0)) p (c :: comb)
        = foldl (fun q c0 => bump q (iw.+1 + bucket cprobs c0))
            (bump p (iw.+1 + bucket cprobs c)) comb by [].
rewrite addSnnS; congr (inr _).
apply: eq_in_foldl_bump => c' Hin.
rewrite bucket_cons; move/allP: Hmin => /(_ c').
by rewrite inE Hin orbT => /(_ isT) /negbTE ->; rewrite addSnnS.
Qed.

Lemma take_set_nth p (i x : nat) :
  (i < size p)%N -> take i.+1 (set_nth 0%N p i x) = rcons (take i p) x.
Proof.
elim: p i => [|y p IH] [|i] //= lt; first by rewrite take0.
by rewrite IH.
Qed.

Lemma drop_set_nth p (i x k : nat) :
  (i < size p)%N -> drop (i.+1 + k) (set_nth 0%N p i x) = drop (i.+1 + k) p.
Proof.
elim: p i => [|y p IH] [|i] //= lt.
by rewrite -[(i.+1 + k)%N]/(i.+1 + k)%N IH.
Qed.

(** The scanning loop writes the bucket of tooth [ic] at position [ic]. *)
Lemma assign_parents_buckets comb ic cprobs p :
  all (fun c => has (fun w => c < w) cprobs) comb ->
  (ic + size comb <= size p)%N ->
  Ensemble.assign_parents comb ic cprobs p
  = inr (take ic p ++ [seq bucket cprobs c | c <- comb]
         ++ drop (ic + size comb) p).
Proof.
elim: comb ic p => [|c comb IH] ic p /=.
  by rewrite addn0 cat_take_drop.
case/andP=> Hc Hall Hsz; rewrite first_exceedingE Hc add0n.
have Hic : (ic < size p)%N by rewrite (leq_trans _ Hsz) // -addn1 leq_add2l.
have Hsz' : (ic.+1 + size comb <= size (set_nth 0%N p ic (bucket cprobs c)))%N.
  by rewrite size_set_nth addSnnS; apply: leq_trans Hsz _; rewrite leq_max leqnn orbT.
rewrite /Np.setitem Hic (IH _ _ Hall Hsz').
by rewrite take_set_nth // drop_set_nth // -cats1 -catA /= addSnnS.
Qed.

Lemma comb_teeth_sorted (total : R) n r :
  0 <= total -> sorted <=%R (Np.comb_teeth total n r).
Proof.
move=> ge0; rewrite /Np.comb_teeth.
apply: (@homo_sorted _ _ _ leq) (iota_sorted 0 n) => i j le_ij.
by rewrite ler_wpM2r ?divr_ge0 ?ler0n // lerD2r ler_nat.
Qed.

Lemma comb_teeth_lt (total : R) n r c :
  0 < total -> r < 1 -> c \in Np.comb_teeth total n r -> c < total.
Proof.
move=> gt0 lt1 /mapP[i]; rewrite mem_iota add0n => /andP[_ lt_in] ->.
have gtn : 0 < n%:R :> R by rewrite ltr0n (leq_ltn_trans _ lt_in).
rewrite mulrA ltr_pdivrMr // mulrC ltr_pM2l //.
apply: lt_le_trans (_ : i.+1%:R <= _); last by rewrite ler_nat.
by rewrite -addn1 natrD ltrD2l.
Qed.

Lemma cumsum_has gw c :
  0 < Np.pysum gw -> c < Np.pysum gw -> has (fun w => c < w) (Np.cumsum gw).
Proof.
case/lastP: gw => [|s x]; first by rewrite /Np.pysum /= ltxx.
by rewrite /Np.cumsum /Np.pysum scanl_rcons has_rcons => _ ->.
Qed.

Lemma comb_teeth_buckets gw n r :
  0 < Np.pysum gw -> r < 1 ->
  all (fun c => has (fun w => c < w) (Np.cumsum gw))
      (Np.comb_teeth (Np.pysum gw) n r).
Proof.
move=> gt0 lt1; apply/allP=> c Hin.
by apply: cumsum_has => //; apply: comb_teeth_lt Hin.
Qed.

Lemma size_cumsum gw : size (Np.cumsum gw) = size gw.
Proof. by rewrite /Np.cumsum size_scanl. Qed.

Lemma size_comb_teeth (total : R) n r : size (Np.comb_teeth total n r) = n.
Proof. by rewrite /Np.comb_teeth size_map size_iota. Qed.

(** What the counting loop of handler.py returns. *)
Lemma comb_counts_buckets gw n r :
  0 < Np.pysum gw -> r < 1 ->
  exists2 counts,
    Handler.comb_counts gw n r = inr counts
    & size counts = size gw
      /\ forall iw, nth 0%N counts iw
           = count (fun c => bucket (Np.cumsum gw) c == iw)
                   (Np.comb_teeth (Np.pysum gw) n r).
Proof.
move=> gt0 lt1; have Hall := comb_teeth_buckets n gt0 lt1.
have Hs := comb_teeth_sorted n r (ltW gt0).
have Hsz0 : (0 + size (Np.cumsum gw) <= size (nseq (size gw) 0%N))%N.
  by rewrite add0n size_cumsum size_nseq.
rewrite /Handler.comb_counts (comb_walk_buckets Hs Hall Hsz0).
eexists; first by [].
split.
  rewrite size_foldl_bump ?size_nseq //.
  apply: sub_all Hall => c; rewrite add0n has_find size_cumsum.
  by [].
by move=> iw; rewrite nth_foldl_bump nth_nseq if_same add0n.
Qed.

(** What the scanning loop of walker.py returns. *)
Lemma comb_parents_buckets gw n r :
  0 < Np.pysum gw -> r < 1 -> (n <= size gw)%N ->
  Ensemble.comb_parents gw n r
  = inr ([seq bucket (Np.cumsum gw) c | c <- Np.comb_teeth (Np.pysum gw) n r]
         ++ drop n (iota 0 (size gw))).
Proof.
move=> gt0 lt1 le_n; have Hall := comb_teeth_buckets n gt0 lt1.
have Hsz : (0 + size (Np.comb_teeth (Np.pysum gw) n r) <= size (iota 0 (size gw)))%N.
  by rewrite add0n size_comb_teeth size_iota.
rewrite /Ensemble.comb_parents (assign_parents_buckets Hall Hsz).
by rewrite take0 add0n size_comb_teeth.
Qed.

End CombAssign.

(** C3. For a weight vector of positive total weight and an offset [r < 1],
    on a comb of [ntarget] teeth with [ntarget] at most the number of
    weights: the scanning loop of pauxy/walker.py and the counting loop of
    pauxy/walkers/handler.py both return, and the number of teeth the scan
    assigns to a walker is the count the other loop holds for it. *)
Theorem comb_assignments_agree (R : realFieldType)
    (gw : seq R) (ntarget : nat) (r : R) :
  0 < Np.pysum gw -> r < 1 -> (ntarget <= size gw)%N ->
  exists parents counts,
    [/\ Ensemble.comb_parents gw ntarget r = inr parents,
        Handler.comb_counts gw ntarget r = inr counts,
        size parents = size gw, size counts = size gw
      & forall iw, count_mem iw (take ntarget parents) = nth 0%N counts iw].
Proof.
move=> gt0 lt1 le_n.
have [counts Ec [Hsz Hc]] := comb_counts_buckets ntarget gt0 lt1.
exists ([seq bucket (Np.cumsum gw) c | c <- Np.comb_teeth (Np.pysum gw) ntarget r]
        ++ drop ntarget (iota 0 (size gw))), counts.
split=> //; first exact: comb_parents_buckets.
  by rewrite size_cat size_map size_comb_teeth size_drop size_iota subnKC.
move=> iw; set A := map _ _; set D := drop _ _.
have -> : take ntarget (A ++ D) = A.
  by apply: take_size_cat; rewrite /A size_map size_comb_teeth.
by rewrite /A count_map Hc; apply: eq_count => c /=; rewrite eq_sym.
Qed.

Lemma comb_assignments_agree_witness :
  exists parents counts,
    [/\ Ensemble.comb_parents [:: 1; 3 : rat] 2 (1 / 2) = inr parents,
        Handler.comb_counts [:: 1; 3 : rat] 2 (1 / 2) = inr counts,
        size parents = 2%N, size counts = 2%N
      & forall iw, count_mem iw (take 2 parents) = nth 0%N counts iw].
Proof.
apply: (@comb_assignments_agree rat [:: 1; 3] 2 (1 / 2)); by vm_compute.
Defined.

(** ** The comb step of handler.py *)

Section HandlerComb.
Variable R : realFieldType.
Variable B : Type.
Notation Walker := (Handler.Walker R B).
Notation Walkers := (Handler.Walkers R B).
Implicit Types (l : seq Walker) (send recv : seq (nat * nat)).










End HandlerComb.





(** ** The constrained discrete sweep *)

Section ConstrainedSweep.
Variable R : realFieldType.
Variable C : fieldType.
Variable re : C -> R.
Variable exp : R -> R.
Variable St : Type.
Variable p : ThermalDiscrete.Propagator C.
Notation sweep := (ThermalDiscrete.sweep R C St).
Notation site := (ThermalDiscrete.constrained_site re exp p).
Notation sites := (ThermalDiscrete.constrained_sites re exp p).
Notation wgt s := (ThermalDiscrete.weight (ThermalDiscrete.walker s)).
Notation gfn s := (ThermalDiscrete.G (ThermalDiscrete.walker s)).
Implicit Types (s : sweep) (eshift : R).

(** The clipped ratios of site [i] and their sum. *)
Definition clipped s (i : nat) : R * R :=
  let probs := ThermalDiscrete.calculate_overlap_ratio p (gfn s) i in
  (Num.max (re probs.1) 0, Num.max (re probs.2) 0).

Definition site_norm s (i : nat) : R := (clipped s i).1 + (clipped s i).2.

(** The sweep up to, and without, site [k]. *)
Definition before eshift s (k : nat) : sweep :=
  foldl (fun s i => site eshift i s) s (iota 0 k).

Lemma site_pos eshift i s :
  Rng.pos (ThermalDiscrete.rng (site eshift i s))
  = (Rng.pos (ThermalDiscrete.rng s)).+1.
Proof. by rewrite /ThermalDiscrete.constrained_site /=; case: ifP. Qed.

Lemma site_weight eshift i s :
  wgt (site eshift i s)
  = if 0 < site_norm s i then wgt s * site_norm s i * exp eshift else 0.
Proof. by rewrite /ThermalDiscrete.constrained_site /=; case: ifP. Qed.

Lemma foldl_site_pos eshift s (l : seq nat) :
  Rng.pos (ThermalDiscrete.rng (foldl (fun s i => site eshift i s) s l))
  = (Rng.pos (ThermalDiscrete.rng s) + size l)%N.
Proof.
elim: l s => [|i l IH] s /=; first by rewrite addn0.
by rewrite IH site_pos addSnnS.
Qed.

Lemma foldl_site_dead eshift s (l : seq nat) :
  wgt s = 0 -> wgt (foldl (fun s i => site eshift i s) s l) = 0.
Proof.
elim: l s => [|i l IH] s //= Hw; apply: IH.
by rewrite site_weight Hw !mul0r if_same.
Qed.

(** C5, as the code has it.  At every site of the sweep one number [r] is
    drawn; the two overlap ratios are clipped at 0; when their sum [norm]
    is positive the weight is multiplied by [norm * exp(eshift)], the field
    is 0 exactly when [r < clipped[0]/norm], and the Green's function and
    [BV] are updated for that field; when [norm] is not positive the weight
    is set to 0 and the Green's function and [BV] are left alone.  The loop
    has no exit: every site of the lattice is visited (one draw each)
    whatever the norms were, and a weight that is 0 stays 0 to the end of
    the sweep. *)
Theorem constrained_sweep_sites eshift s (i : nat) :
  let c := clipped s i in
  let norm := site_norm s i in
  let r := Rng.stream (ThermalDiscrete.rng s) (Rng.pos (ThermalDiscrete.rng s)) in
  let xi := ~~ (r < c.1 / norm) in
  let s' := site eshift i s in
  [/\ 0 <= c.1 /\ 0 <= c.2,
      Rng.pos (ThermalDiscrete.rng s') = (Rng.pos (ThermalDiscrete.rng s)).+1,
      0 < norm ->
        [/\ wgt s' = wgt s * norm * exp eshift,
            gfn s' = ThermalDiscrete.update_greens_function p i xi (gfn s)
          & ThermalDiscrete.BV s' = ThermalDiscrete.set_bv p i xi (ThermalDiscrete.BV s)],
      ~~ (0 < norm) ->
        [/\ wgt s' = 0, gfn s' = gfn s
          & ThermalDiscrete.BV s' = ThermalDiscrete.BV s]
    & [/\ Rng.pos (ThermalDiscrete.rng (sites eshift s))
            = (Rng.pos (ThermalDiscrete.rng s) + ThermalDiscrete.nbasis p)%N,
          wgt s = 0 -> wgt (sites eshift s) = 0
        & forall k, (k < ThermalDiscrete.nbasis p)%N ->
            ~~ (0 < site_norm (before eshift s k) k) -> wgt (sites eshift s) = 0]].
Proof.
move=> c norm r xi s'; split.
- by rewrite /c /clipped /= !le_max !lexx !orbT.
- exact: site_pos.
- by move=> gt0; rewrite /s' /ThermalDiscrete.constrained_site /= -/(site_norm s i) gt0.
- move=> /negbTE le0.
  by rewrite /s' /ThermalDiscrete.constrained_site /= -/(site_norm s i) le0.
split.
- by rewrite /ThermalDiscrete.constrained_sites foldl_site_pos size_iota.
- exact: foldl_site_dead.
move=> k lt_k /negbTE le0.
rewrite /ThermalDiscrete.constrained_sites -(subnKC (ltnW lt_k)) iotaD foldl_cat.
rewrite add0n -/(before eshift s k).
have -> : (ThermalDiscrete.nbasis p - k = (ThermalDiscrete.nbasis p - k).-1.+1)%N.
  by rewrite prednK // subn_gt0.
by rewrite /= foldl_site_dead // site_weight le0.
Qed.

End ConstrainedSweep.

(** ** The continuous propagator *)

Section ContinuousRaises.
Variable R : realFieldType.
Variable C : fieldType.
Variable conj : C -> C.
Variables nbasis nup ndown nfields : nat.
Variable clog : C -> Py.exn + C.
Variable cexp : C -> Py.exn + C.
Variable polar : C -> Py.exn + R * R.
Variable cphase : C -> R.
Variable cos : R -> Py.exn + R.
Variable isinf : R -> bool.
Variable absolute : C -> R.
Variable of_real : R -> C.
Variable normal : R -> C.
Variable expi : R -> C.

Notation Globals := (Continuous.Globals C nbasis nup ndown nfields).
Notation Self := (Continuous.Self C nbasis nfields).
Notation state := (Continuous.state R C nbasis nup ndown).
Notation wfn := (SingleDet.wfn C nbasis nup ndown).
Notation two_body := (@Continuous.two_body_propagator R C nbasis nup ndown
                        nfields absolute of_real normal).
Notation phaseless := (@Continuous.propagate_walker_phaseless R C conj nbasis
                         nup ndown nfields clog cexp polar cphase cos isinf
                         absolute of_real normal).
Notation free := (@Continuous.propagate_walker_free R C conj nbasis nup ndown
                    nfields cexp polar absolute of_real normal expi).
Implicit Types (gl : Globals) (self : Self) (s : state) (trial : wfn).

(** Whatever the other names are bound to, the call stops at the latest on
    the unbound name [shifted], with the walker untouched. *)
Lemma two_body_stops gl self fb s :
  Continuous.g_shifted gl = None ->
  exists e s',
    [/\ two_body gl self fb s = Py.Raise e s',
        Continuous.walker s' = Continuous.walker s
      & Continuous.g_numpy gl -> fb ==> isSome (Continuous.propagator self) ->
        e = Py.NameError "shifted"].
Proof.
move=> Hsh; rewrite /Continuous.two_body_propagator /Py.bind.
rewrite /Continuous.load_module; case: (Continuous.g_numpy gl) => /=; last first.
  by exists (Py.NameError "numpy"), s.
rewrite /Continuous.draw_normal /=.
case: fb => /=.
  rewrite /Py.bind /Continuous.getattr.
  case: (Continuous.propagator self) => [hs|] /=; last first.
    by eexists _, _; split; first by [].
  by rewrite /Continuous.load_global Hsh /=; eexists _, _; split; first by [].
by rewrite /Continuous.load_global Hsh /=; eexists _, _; split; first by [].
Qed.

Lemma kinetic_weight gl s :
  match Continuous.kinetic gl s with
  | Py.Ok _ s' | Py.Raise _ s' =>
      SingleDet.weight (Continuous.walker s') = SingleDet.weight (Continuous.walker s)
  end.
Proof.
rewrite /Continuous.kinetic /Py.bind /Continuous.load_global.
by case: (Continuous.g_kinetic_real gl).
Qed.

(** C10. In the module as written, [two_body_propagator] raises a
    [NameError] on every call, before it has touched the walker.  With the
    other names supplied it still cannot return: the name [shifted] is bound
    nowhere, and once [numpy] is bound and [self.propagator] is set (or the
    force bias is off) the exception is the [NameError] for [shifted],
    whether or not [self.mf_shift] is set.  Both [propagate_walker_phaseless]
    and [propagate_walker_free] therefore never return and leave the
    walker's weight as it was. *)
Theorem two_body_propagator_raises gl self trial fb s :
  Continuous.g_shifted gl = None ->
  [/\ two_body (Continuous.as_written C nbasis nup ndown nfields) self fb s
        = Py.Raise (Py.NameError "numpy") s,
      exists e s',
        [/\ two_body gl self fb s = Py.Raise e s',
            Continuous.walker s' = Continuous.walker s
          & Continuous.g_numpy gl -> fb ==> isSome (Continuous.propagator self) ->
            e = Py.NameError "shifted"],
      ~~ Py.returns (phaseless gl self trial s)
      /\ SingleDet.weight (Continuous.walker (Py.final (phaseless gl self trial s)))
         = SingleDet.weight (Continuous.walker s)
    & ~~ Py.returns (free gl self trial s)
      /\ SingleDet.weight (Continuous.walker (Py.final (free gl self trial s)))
         = SingleDet.weight (Continuous.walker s)].
Proof.
move=> Hsh; split; first by [].
- exact: two_body_stops.
- rewrite /Continuous.propagate_walker_phaseless /Py.bind.
  have := kinetic_weight gl s; case: (Continuous.kinetic gl s) => [[] s1|e s1] // Hw.
  have [e [s' [-> Hs' _]]] := two_body_stops self true s1 Hsh.
  by rewrite /= Hs'.
- rewrite /Continuous.propagate_walker_free /Py.bind.
  have := kinetic_weight gl s; case: (Continuous.kinetic gl s) => [[] s1|e s1] // Hw.
  have [e [s' [-> Hs' _]]] := two_body_stops self false s1 Hsh.
  by rewrite /= Hs'.
Qed.

End ContinuousRaises.

Definition c10_self : Continuous.Self rat 1 1 :=
  Continuous.mkSelf false 4 1 1 None None.

Definition c10_state : Continuous.state rat rat 1 1 1 :=
  Continuous.mkState c1_walker 1
    (FieldConfig.mk [::] [::] [::] 0 (-1) 0 1 1 0 0) (Rng.mk (fun _ => 1 / 2) 0).

Lemma two_body_propagator_raises_witness :
  @Continuous.two_body_propagator rat rat 1 1 1 1 (fun z => z) (fun x => x)
     (fun x => x) (Continuous.as_written rat 1 1 1 1) c10_self true c10_state
  = Py.Raise (Py.NameError "numpy") c10_state.
Proof.
have [] := @two_body_propagator_raises rat rat id 1 1 1 1
  (fun z => inr z) (fun z => inr z) (fun z => inr (z, 0)) (fun z => z)
  (fun x => inr x) (fun _ => false) (fun z => z) (fun x => x) (fun x => x)
  (fun x => x) (Continuous.as_written rat 1 1 1 1) c10_self c1_trial true
  c10_state erefl.
by [].
Defined.

(** ** Singular overlaps *)

Section SingularOverlap.
Variable R : realFieldType.
Variable C : fieldType.
Variable conj : C -> C.
Variables nbasis nup ndown nfields : nat.
Variable clog : C -> Py.exn + C.
Variable cexp : C -> Py.exn + C.
Variable polar : C -> Py.exn + R * R.
Variable cphase : C -> R.
Variable cos : R -> Py.exn + R.
Variable isinf : R -> bool.
Variable of_real : R -> C.

Notation Walker := (SingleDet.Walker R C nbasis nup ndown).
Notation wfn := (SingleDet.wfn C nbasis nup ndown).
Notation state := (Continuous.state R C nbasis nup ndown).
Notation phaseless_update :=
  (@Continuous.phaseless_update R C conj nbasis nup ndown nfields clog cexp
     polar cphase cos isinf of_real).

Definition singular (trial : wfn) (w : Walker) : bool :=
  (SingleDet.overlap conj (lsubmx trial) (lsubmx (SingleDet.phi w)) \notin unitmx)
  || (SingleDet.overlap conj (rsubmx trial) (rsubmx (SingleDet.phi w)) \notin unitmx).

Lemma inverse_overlap_singular (trial : wfn) (w : Walker) :
  singular trial w ->
  exists w',
    [/\ SingleDet.inverse_overlap conj trial w = Py.Raise Py.LinAlgError w',
        SingleDet.weight w' = SingleDet.weight w,
        SingleDet.alive w' = SingleDet.alive w
      & SingleDet.phi w' = SingleDet.phi w].
Proof.
rewrite /singular inverse_overlapE /Linalg.inv.
case: (_ \in unitmx) => /=; last by exists w.
by move=> /negbTE ->; eexists; split; first by [].
Qed.

(** C8, as the code has it.  A singular overlap block makes
    [Walker.inverse_overlap] raise [LinAlgError] to its caller; the walker
    keeps its weight, its alive flag and its amplitude.  The hybrid update
    of [propagate_walker_phaseless] calls it first and has no handler, so it
    raises the same exception and leaves the weight and the alive flag as
    they were; and a walker cannot be constructed on such an amplitude. *)
Theorem singular_overlap_raises (trial : wfn) (w : Walker) :
  singular trial w ->
  [/\ exists w',
        [/\ SingleDet.inverse_overlap conj trial w = Py.Raise Py.LinAlgError w',
            SingleDet.weight w' = SingleDet.weight w
          & SingleDet.alive w' = SingleDet.alive w],
      forall gl self cmf cfb xmxbar (s : state),
        Continuous.walker s = w ->
        exists s',
          [/\ phaseless_update gl self trial cmf cfb xmxbar s
                = Py.Raise Py.LinAlgError s',
              SingleDet.weight (Continuous.walker s') = SingleDet.weight w
            & SingleDet.alive (Continuous.walker s') = SingleDet.alive w]
    & forall nw : R, SingleDet.init conj nw trial (SingleDet.phi w) = inl Py.LinAlgError].
Proof.
move=> Hs; split.
- by have [w' [E Hw Ha _]] := inverse_overlap_singular Hs; exists w'.
- move=> gl self cmf cfb xmxbar s Ew.
  have [w' [E Hw Ha _]] := inverse_overlap_singular Hs.
  exists (Continuous.set_walker w' s).
  rewrite /Continuous.phaseless_update /Py.bind /Continuous.on_walker /Py.zoom.
  by rewrite Ew E.
- move=> nw; rewrite /SingleDet.init /Py.run /Py.bind.
  set w0 := SingleDet.mkWalker _ _ _ _ _ _.
  have Hs0 : singular trial w0 by [].
  by have [w' [-> _ _ _]] := inverse_overlap_singular Hs0.
Qed.

End SingularOverlap.

Definition c8_walker : SingleDet.Walker rat rat 1 1 1 :=
  SingleDet.mkWalker 1 true 0 (1%:M, 1%:M) (0, 0) 1.

Lemma c8_singular : singular id c1_trial c8_walker.
Proof.
rewrite /singular /SingleDet.overlap /= linear0 mulmx0.
by rewrite unitmxE det0 unitr0.
Qed.

(** A live walker of weight 1 whose amplitude has become 0: the overlap is
    singular, and the call raises instead of returning a dead walker. *)
Lemma singular_overlap_soft_counterexample :
  SingleDet.inverse_overlap id c1_trial c8_walker
    = Py.Raise Py.LinAlgError c8_walker
  /\ SingleDet.weight c8_walker = 1 /\ SingleDet.alive c8_walker = true.
Proof.
split=> //; rewrite inverse_overlapE /Linalg.inv /SingleDet.overlap /=.
by rewrite !linear0 ?mulmx0 unitmxE det0 unitr0.
Qed.

Lemma singular_overlap_raises_witness :
  exists w',
    [/\ SingleDet.inverse_overlap id c1_trial c8_walker = Py.Raise Py.LinAlgError w',
        SingleDet.weight w' = 1 & SingleDet.alive w' = true].
Proof.
by have [] := @singular_overlap_raises rat rat id 1 1 1 1
  (fun z => inr z) (fun z => inr z) (fun z => inr (z, 0)) (fun z => z)
  (fun x => inr x) (fun _ => false) (fun x => x) c1_trial c8_walker c8_singular.
Defined.

(** ** The hybrid phaseless weight update *)

Section PhaselessUpdate.
Variable R : realFieldType.
Variable C : fieldType.
Variable conj : C -> C.
Variables nbasis nup ndown nfields : nat.
Variable clog : C -> Py.exn + C.
Variable cexp : C -> Py.exn + C.
Variable polar : C -> Py.exn + R * R.
Variable cphase : C -> R.
Variable cos : R -> Py.exn + R.
Variable isinf : R -> bool.
Variable of_real : R -> C.

Notation Walker := (SingleDet.Walker R C nbasis nup ndown).
Notation wfn := (SingleDet.wfn C nbasis nup ndown).
Notation state := (Continuous.state R C nbasis nup ndown).
Notation phaseless_update :=
  (@Continuous.phaseless_update R C conj nbasis nup ndown nfields clog cexp
     polar cphase cos isinf of_real).
Notation wgt s := (SingleDet.weight (Continuous.walker s)).
Notation otr s := (SingleDet.ot (Continuous.walker s)).




End PhaselessUpdate.



(** A lattice of two sites in the spin decomposition with
    [exp(gamma) - 1 = 1]: at site 0 both ratios are negative, at site 1
    both are positive. *)
Definition c5_propagator : ThermalDiscrete.Propagator rat :=
  ThermalDiscrete.mkPropagator 2
    (fun xi spin => if xi == spin then 1 else - (1 / 2))
    (fun xi spin => if xi == spin then 2 else 1 / 2)
    (fun _ i j => (i == j)%:R) (fun _ i j => (i == j)%:R)
    (fun _ i j => (i == j)%:R) 10.

Definition c5_G : ThermalDiscrete.gf rat :=
  fun _ i j => if i == j then (if i == 0%N then 3 else 1 / 2) else 0.

Definition c5_start : ThermalDiscrete.sweep rat rat unit :=
  ThermalDiscrete.mkSweep (ThermalDiscrete.mkWalker 1 c5_G tt)
    (fun _ _ => 0) (Rng.mk (fun _ => 1 / 4) 0).

(** The normalisation is 0 at site 0 and the weight is set to 0 there, yet
    site 1 is processed: a second number is drawn, and the Green's function
    and [BV] are updated at site 1. *)
Lemma constrained_sweep_stops_counterexample :
  let site0 := ThermalDiscrete.constrained_site id (fun _ => 1)
                 c5_propagator 0 0 c5_start in
  let swept := ThermalDiscrete.constrained_sites id (fun _ => 1)
                 c5_propagator 0 c5_start in
  [/\ site_norm id c5_propagator c5_start 0 = 0,
      ThermalDiscrete.weight (ThermalDiscrete.walker site0) = 0,
      Rng.pos (ThermalDiscrete.rng site0) = 1%N
    & Rng.pos (ThermalDiscrete.rng swept) = 2%N]
  /\ [/\ ThermalDiscrete.G (ThermalDiscrete.walker site0) false 1%N 1%N = 1 / 2,
         ThermalDiscrete.G (ThermalDiscrete.walker swept) false 1%N 1%N = 1 / 3,
         ThermalDiscrete.BV site0 false 1%N = 0
       & ThermalDiscrete.BV swept false 1%N = 2].
Proof. by split; split; vm_compute. Qed.

(** * Further properties of the code *)

(** ** The single-determinant walker *)

Section WalkerAlgebra.
Variable R : Type.
Variable C : fieldType.
Variable conj : C -> C.
Variables nbasis nup ndown : nat.
Notation Walker := (SingleDet.Walker R C nbasis nup ndown).
Notation wfn := (SingleDet.wfn C nbasis nup ndown).

(** The walker after [inverse_overlap] and [greens_function]. *)
Definition refreshed (trial : wfn) (w : Walker) : Walker :=
  Py.final ((SingleDet.inverse_overlap conj trial ;;
             SingleDet.greens_function conj trial) w).

Lemma refreshedE (trial : wfn) (w : Walker) :
  let Oup := SingleDet.overlap conj (lsubmx trial) (lsubmx (SingleDet.phi w)) in
  let Odn := SingleDet.overlap conj (rsubmx trial) (rsubmx (SingleDet.phi w)) in
  Oup \in unitmx -> Odn \in unitmx ->
  refreshed trial w
  = SingleDet.set_G
      ((lsubmx (SingleDet.phi w) *m invmx Oup *m (map_mx conj (lsubmx trial))^T)^T,
       (rsubmx (SingleDet.phi w) *m invmx Odn *m (map_mx conj (rsubmx trial))^T)^T)
      (SingleDet.set_inv_ovlp_down (invmx Odn)
         (SingleDet.set_inv_ovlp_up (invmx Oup) w)).
Proof.
move=> Oup Odn uU uD; rewrite /refreshed /Py.bind inverse_overlapE /Linalg.inv.
by rewrite uU uD.
Qed.

Lemma projector_block k (T p : 'M[C]_(nbasis, k)) :
  let O := SingleDet.overlap conj T p in
  let G := (p *m invmx O *m (map_mx conj T)^T)^T in
  O \in unitmx -> G *m G = G /\ \tr G = k%:R.
Proof.
move=> O G uO; rewrite /G; set Tc := (map_mx conj T)^T; split.
  rewrite -trmx_mul; congr (_^T).
  rewrite -!mulmxA [Tc *m (p *m _)]mulmxA -/(SingleDet.overlap conj T p) -/O.
  by rewrite [O *m _]mulmxA mulmxV // mul1mx.
rewrite mxtrace_tr -mulmxA mxtrace_mulC -mulmxA.
by rewrite -/(SingleDet.overlap conj T p) -/O mulVmx // mxtrace1.
Qed.

(** X1. After [inverse_overlap] and [greens_function] on an amplitude whose
    overlaps with the trial are invertible, each spin block of the Green's
    function is a projector ([G.dot(G) = G]) whose trace is the number of
    particles of that spin. *)
Theorem greens_function_projector (trial : wfn) (w : Walker) :
  SingleDet.overlap conj (lsubmx trial) (lsubmx (SingleDet.phi w)) \in unitmx ->
  SingleDet.overlap conj (rsubmx trial) (rsubmx (SingleDet.phi w)) \in unitmx ->
  let G := SingleDet.G (refreshed trial w) in
  [/\ G.1 *m G.1 = G.1, G.2 *m G.2 = G.2, \tr G.1 = nup%:R & \tr G.2 = ndown%:R].
Proof.
move=> uU uD; rewrite (refreshedE uU uD) /=.
have [H1 H2] := projector_block uU; have [H3 H4] := projector_block uD.
by split.
Qed.

(** X2. After [inverse_overlap] on invertible overlaps, [calc_otrial]
    returns the overlap of the walker with the trial: the product of the
    determinants of the two overlap matrices. *)
Theorem calc_otrial_is_overlap (trial : wfn) (w : Walker) :
  let Oup := SingleDet.overlap conj (lsubmx trial) (lsubmx (SingleDet.phi w)) in
  let Odn := SingleDet.overlap conj (rsubmx trial) (rsubmx (SingleDet.phi w)) in
  Oup \in unitmx -> Odn \in unitmx ->
  SingleDet.calc_otrial (Py.final (SingleDet.inverse_overlap conj trial w))
  = \det Oup * \det Odn.
Proof.
move=> Oup Odn uU uD; rewrite inverse_overlapE /Linalg.inv uU uD /=.
by rewrite /SingleDet.calc_otrial /= !det_inv -invfM div1r invrK.
Qed.

End WalkerAlgebra.

Lemma greens_function_projector_witness :
  let G := SingleDet.G (refreshed id c1_trial c1_walker) in
  [/\ G.1 *m G.1 = G.1, G.2 *m G.2 = G.2, \tr G.1 = 1%:R & \tr G.2 = 1%:R].
Proof.
apply: greens_function_projector.
- by rewrite c1_overlap_up unitmx1.
- by rewrite c1_overlap_down unitmx1.
Defined.

Lemma calc_otrial_is_overlap_witness :
  SingleDet.calc_otrial (Py.final (SingleDet.inverse_overlap id c1_trial c1_walker))
  = \det (SingleDet.overlap id (lsubmx c1_trial) (lsubmx c1_trial))
    * \det (SingleDet.overlap id (rsubmx c1_trial) (rsubmx c1_trial)).
Proof.
apply: (@calc_otrial_is_overlap rat rat id 1 1 1 c1_trial c1_walker).
- by rewrite c1_overlap_up unitmx1.
- by rewrite c1_overlap_down unitmx1.
Defined.

(** ** The ensemble of walker.py *)

Section EnsembleProps.
Variable R : realFieldType.
Variable C : fieldType.
Variable conj : C -> C.
Variables nbasis nup ndown : nat.
Variable floor : R -> int.
Notation Walker := (SingleDet.Walker R C nbasis nup ndown).
Notation Walkers := (Ensemble.Walkers R C nbasis nup ndown).
Notation wfn := (SingleDet.wfn C nbasis nup ndown).
Implicit Types (l : seq Walker) (ws : Walkers) (g : Rng.state R).





(** X4. When an overlap of the initial amplitude with the trial is
    singular, building an ensemble raises [LinAlgError] as soon as one
    walker is asked for; with no walker asked for, the construction
    succeeds and the ensemble is empty. *)
Theorem init_singular inputs (trial phi0 : wfn) (n : nat) :
  (SingleDet.overlap conj (lsubmx trial) (lsubmx phi0) \notin unitmx)
  || (SingleDet.overlap conj (rsubmx trial) (rsubmx phi0) \notin unitmx) ->
  if n is 0%N then
    exists ws, [/\ Ensemble.init conj inputs trial phi0 n = inr ws,
                   Ensemble.walkers ws = [::] & Ensemble.nw ws = 0%N]
  else Ensemble.init conj inputs trial phi0 n = inl Py.LinAlgError.
Proof.
case: n => [|n] Hs; rewrite /Ensemble.init.
  by eexists; split; first by [].
have Hs0 : singular conj trial
    (SingleDet.mkWalker (1 : R) true phi0 (0, 0) (0, 0) 0) by [].
rewrite /SingleDet.init /Py.run /Py.bind.
by have [w' [-> _ _ _]] := inverse_overlap_singular Hs0.
Qed.

(** X5. The thresholds of [branching] are strict: a walker whose weight
    lies between [wmin] and [wmax], bounds included, is neither cloned nor
    killed and its weight is not touched, whatever its draw. *)
Theorem branching_boundaries (wmax wmin : R) (i : nat) (r : R) (w : Walker)
    (m : Ensemble.marks) :
  wmin <= SingleDet.weight w <= wmax ->
  Ensemble.branch_one floor (Config.Num wmax) (Config.Num wmin) i r w m
  = inr (w, m).
Proof.
case/andP=> le_min le_max; rewrite /Ensemble.branch_one /=.
by rewrite ltNge le_max /= ltNge le_min.
Qed.

Lemma branch_one_alive (wmax wmin : R) i r (w : Walker) m :
  exists w' m',
    [/\ Ensemble.branch_one floor (Config.Num wmax) (Config.Num wmin) i r w m
          = inr (w', m'),
        SingleDet.alive w' -> SingleDet.alive w
      & SingleDet.weight w' = SingleDet.weight w \/ SingleDet.weight w' = 1].
Proof.
rewrite /Ensemble.branch_one /=; case: ifP => _.
  by eexists _, _; split; [by []| |right].
case: ifP => _; last by exists w, m; split; [| |left].
case: ifP => _; last by exists w, m; split; [| |left].
by eexists _, _; split; [by []| |left].
Qed.

(** X6. The search loop of [branching] draws one number for every walker
    of the list, dead ones included, keeps the list's length, and never
    brings a dead walker back to life; each weight is left as it was or
    reset to 1. *)
Theorem branching_search (wmax wmin : R) (i : nat) l g (m : Ensemble.marks) :
  exists l' m',
    [/\ Ensemble.search floor (Config.Num wmax) (Config.Num wmin) i l g m
          = inr (l', Rng.mk (Rng.stream g) (Rng.pos g + size l), m'),
        size l' = size l
      & forall k (w0 : Walker),
          (SingleDet.alive (nth w0 l' k) ==> SingleDet.alive (nth w0 l k))
          /\ (SingleDet.weight (nth w0 l' k) = SingleDet.weight (nth w0 l k)
              \/ SingleDet.weight (nth w0 l' k) = 1)].
Proof.
elim: l i g m => [|w l IH] i g m /=.
  exists [::], m; split; [by case: g => st p; rewrite addn0|by []|].
  by move=> k w0; split; [apply/implyP|left].
have [w1 [m1 [-> Ha Hw]]] := branch_one_alive wmax wmin i (Rng.stream g (Rng.pos g)) w m.
have [l' [m' [-> Hsz Hk]]] := IH i.+1 (Rng.mk (Rng.stream g) (Rng.pos g).+1) m1.
exists (w1 :: l'), m'; split.
- by rewrite /= addSnnS.
- by rewrite /= Hsz.
- by case=> [|k] w0 //=; split=> //; apply/implyP.
Qed.

(** X7. [rescale_weights] on Python numbers, when it cannot divide: a
    non-numeric [max_nwalkers] raises [TypeError], a zero [max_nwalkers] raises
    [ZeroDivisionError], and so does a zero total of the alive weights as
    soon as there is a walker to divide; in each case no walker's weight
    has been changed.  An empty ensemble is rescaled without error. *)
Theorem rescale_weights_failures ws :
  [/\ forall s, Ensemble.max_nwalkers ws = Config.Str R s ->
        Ensemble.rescale_weights ws
        = Py.Raise Py.TypeError (Ensemble.calculate_total_weight ws),
      Ensemble.max_nwalkers ws = Config.Num 0 ->
        Ensemble.rescale_weights ws
        = Py.Raise Py.ZeroDivisionError (Ensemble.calculate_total_weight ws),
      forall m, Ensemble.max_nwalkers ws = Config.Num m -> m != 0 ->
        Ensemble.alive_weight (Ensemble.walkers ws) = 0 ->
        (0 < size (Ensemble.walkers ws))%N ->
        Ensemble.rescale_weights ws
        = Py.Raise Py.ZeroDivisionError (Ensemble.calculate_total_weight ws)
    & forall m, Ensemble.max_nwalkers ws = Config.Num m -> m != 0 ->
        Ensemble.walkers ws = [::] ->
        Ensemble.rescale_weights ws
        = Py.Ok tt (Ensemble.set_walkers [::] (Ensemble.calculate_total_weight ws))].
Proof.
rewrite /Ensemble.rescale_weights /Py.bind /Py.modify /Py.get /Py.lift /=.
split.
- by move=> s ->.
- by move=> -> /=; rewrite /Np.pydiv eqxx.
- move=> m -> nz Ht; rewrite /= /Np.pydiv (negbTE nz) /= Ht mul0r.
  by case: (Ensemble.walkers ws) => [|w l] //= _; rewrite /Np.pydiv eqxx.
- by move=> m -> nz -> /=; rewrite /Np.pydiv (negbTE nz).
Qed.

End EnsembleProps.

Definition zero_amplitude : SingleDet.wfn rat 1 1 1 := 0.

Lemma zero_amplitude_singular :
  (SingleDet.overlap id (lsubmx c1_trial) (lsubmx zero_amplitude) \notin unitmx)
  || (SingleDet.overlap id (rsubmx c1_trial) (rsubmx zero_amplitude) \notin unitmx).
Proof.
by rewrite /SingleDet.overlap /zero_amplitude linear0 mulmx0 unitmxE det0 unitr0.
Qed.

Definition no_inputs : Config.dict rat := [::].


Lemma init_singular_witness :
  Ensemble.init id no_inputs c1_trial zero_amplitude 2 = inl Py.LinAlgError.
Proof.
exact: (@init_singular rat rat id 1 1 1 no_inputs c1_trial zero_amplitude 2
          zero_amplitude_singular).
Defined.

Definition unit_walker (x : rat) : SingleDet.Walker rat rat 1 1 1 :=
  SingleDet.mkWalker x true c1_trial (1%:M, 1%:M) (0, 0) 1.

Definition no_mark : Ensemble.marks := Ensemble.mkMarks [::] [::] [::].

Lemma branching_boundaries_witness :
  Ensemble.branch_one (fun _ => 0) (Config.Num 4) (Config.Num (5 / 100)) 0 1
    (unit_walker 4) no_mark
  = inr (unit_walker 4, no_mark).
Proof.
apply: (@branching_boundaries rat rat 1 1 1 (fun _ => 0) 4 (5 / 100) 0 1
          (unit_walker 4) no_mark).
have -> : SingleDet.weight (unit_walker 4) = 4 by [].
by vm_compute.
Defined.

Definition empty_ensemble (m : Config.value rat) (l : seq (SingleDet.Walker rat rat 1 1 1))
    : Ensemble.Walkers rat rat 1 1 1 :=
  Ensemble.mkWalkers (Config.Str rat "comb") (Config.Num 4)
    (Config.Num (5 / 100)) m (Config.Num 1) l 0 0.

Lemma rescale_weights_failures_witness :
  [/\ Ensemble.rescale_weights (empty_ensemble (Config.Str rat "many") [::])
      = Py.Raise Py.TypeError
          (Ensemble.calculate_total_weight (empty_ensemble (Config.Str rat "many") [::])),
      Ensemble.rescale_weights (empty_ensemble (Config.Num 0) [::])
      = Py.Raise Py.ZeroDivisionError
          (Ensemble.calculate_total_weight (empty_ensemble (Config.Num 0) [::])),
      Ensemble.rescale_weights (empty_ensemble (Config.Num 1) [:: unit_walker 0])
      = Py.Raise Py.ZeroDivisionError
          (Ensemble.calculate_total_weight
             (empty_ensemble (Config.Num 1) [:: unit_walker 0]))
    & Ensemble.rescale_weights (empty_ensemble (Config.Num 1) [::])
      = Py.Ok tt (Ensemble.set_walkers [::]
          (Ensemble.calculate_total_weight (empty_ensemble (Config.Num 1) [::])))].
Proof.
split.
- by have [H _ _ _] := rescale_weights_failures
    (empty_ensemble (Config.Str rat "many") [::]); apply: H.
- by have [_ H _ _] := rescale_weights_failures
    (empty_ensemble (Config.Num 0) [::]); apply: H.
- have [_ _ H _] := rescale_weights_failures
    (empty_ensemble (Config.Num 1) [:: unit_walker 0]).
  by apply: (H 1).
- have [_ _ _ H] := rescale_weights_failures
    (empty_ensemble (Config.Num 1) [::]).
  by apply: (H 1).
Defined.

(** ** The comb of handler.py: conservation and edge cases *)

Section CombTotals.
Variable R : realFieldType.
Variable B : Type.
Notation Walker := (Handler.Walker R B).
Notation Walkers := (Handler.Walkers R B).
Implicit Types (c w r : R) (cprobs comb gw : seq R) (p : seq nat).

Lemma sumn_bump p j : (j < size p)%N -> sumn (bump p j) = (sumn p).+1.
Proof.
rewrite /bump; elim: p j => [|x p IH] [|j] //= lt.
by rewrite IH // addnS.
Qed.

Lemma sumn_foldl_bump (f : R -> nat) comb p :
  all (fun c => f c < size p)%N comb ->
  sumn (foldl (fun q c => bump q (f c)) p comb) = (sumn p + size comb)%N.
Proof.
elim: comb p => [|c comb IH] p /=; first by rewrite addn0.
case/andP=> lt Hall; rewrite IH ?sumn_bump ?addSnnS //.
by apply: sub_all Hall => c' Hc'; rewrite size_bump.
Qed.

(** X8. The comb conserves the population: for weights of positive total
    and an offset [r < 1], the counting loop of handler.py returns, one
    count per walker, and the counts add up to the number of teeth
    [ntarget]. *)
Theorem comb_counts_total gw (ntarget : nat) r :
  0 < Np.pysum gw -> r < 1 ->
  exists counts,
    [/\ Handler.comb_counts gw ntarget r = inr counts,
        size counts = size gw & sumn counts = ntarget].
Proof.
move=> gt0 lt1; have Hall := comb_teeth_buckets ntarget gt0 lt1.
have Hs := comb_teeth_sorted ntarget r (ltW gt0).
have Hsz0 : (0 + size (Np.cumsum gw) <= size (nseq (size gw) 0%N))%N.
  by rewrite add0n size_cumsum size_nseq.
have Hlt : all (fun c => 0 + bucket (Np.cumsum gw) c < size (nseq (size gw) 0%N))%N
               (Np.comb_teeth (Np.pysum gw) ntarget r).
  by apply: sub_all Hall => c; rewrite add0n has_find size_cumsum size_nseq.
rewrite /Handler.comb_counts (comb_walk_buckets Hs Hall Hsz0).
eexists; split; first by [].
- by rewrite (size_foldl_bump Hlt) size_nseq.
- rewrite (sumn_foldl_bump Hlt) size_comb_teeth.
  by rewrite sumn_nseq ?muln0 ?mul0n.
Qed.

Lemma plan_sizes parent_ix i n send recv :
  (0 < n)%N ->
  exists send' recv',
    Handler.plan parent_ix i n send recv = inr (send', recv')
    /\ (size send' + size recv + size parent_ix
        = size recv' + size send + sumn parent_ix)%N.
Proof.
case: n => // n _.
elim: parent_ix i send recv => [|w rest IH] i send recv /=.
  by exists send, recv; split=> //; rewrite !addn0 addnC.
case: w => [|[|w]] /=.
- have [s' [r' [-> E]]] := IH i.+1 send (rcons recv (i %/ n.+1, i %% n.+1)%N).
  exists s', r'; split=> //; move: E; rewrite size_rcons.
  by do ?[rewrite addnA | rewrite addnS | rewrite addSn | rewrite add0n | rewrite addn0].
- have [s' [r' [-> E]]] := IH i.+1 send recv.
  exists s', r'; split=> //; move: E.
  by do ?[rewrite addnA | rewrite addnS | rewrite addSn | rewrite add0n | rewrite addn0] => ->.
- have [s' [r' [-> E]]] :=
    IH i.+1 (send ++ nseq w.+1 (i %/ n.+1, i %% n.+1)%N) recv.
  exists s', r'; split=> //; move: E; rewrite size_cat size_nseq.
  by do ?[rewrite addnA | rewrite addnS | rewrite addSn | rewrite add0n | rewrite addn0] => ->.
Qed.

(** X9. The transfer plan: with at least one walker per process, the plan
    is built without error, and the number of copies to send plus the
    number of walkers is the number of slots to fill plus the sum of the
    counts.  So when the counts add up to the number of walkers there are
    exactly as many copies sent as slots that receive one. *)
Theorem plan_balance parent_ix (n : nat) :
  (0 < n)%N ->
  exists send recv,
    [/\ Handler.plan parent_ix 0 n [::] [::] = inr (send, recv),
        (size send + size parent_ix = size recv + sumn parent_ix)%N
      & (sumn parent_ix == size parent_ix) ==> (size send == size recv)].
Proof.
move=> gt0; have [s [r [E Hsz]]] := plan_sizes parent_ix 0 [::] [::] gt0.
exists s, r; move: Hsz; rewrite /= !addn0 => Hsz; split=> //.
by apply/implyP=> /eqP Es; move: Hsz; rewrite Es => /eqP; rewrite eqn_add2r.
Qed.

Lemma comb_walk_none cprobs iw comb p :
  (0 < size comb)%N -> all (fun c => ~~ has (fun w => c < w) cprobs) comb ->
  Handler.comb_walk cprobs iw comb p = inl Py.IndexError.
Proof.
move=> Hsz; elim: cprobs iw => [|w cprobs IH] iw Hall.
  by case: comb Hsz {Hall}.
case: comb Hsz IH Hall => [|c comb] // _ IH Hall; rewrite comb_walk_step.
have /andP[/= Hc _] := Hall.
rewrite negb_or in Hc; have /andP[/negbTE -> _] := Hc.
apply: IH => //; apply: sub_all Hall => c' /=.
by rewrite negb_or => /andP[].
Qed.

Lemma assign_parents_none comb ic cprobs p :
  all (fun c => ~~ has (fun w => c < w) cprobs) comb ->
  Ensemble.assign_parents comb ic cprobs p = inr p.
Proof.
elim: comb ic => [|c comb IH] ic //= /andP[/negbTE Hc Hall].
by rewrite first_exceedingE Hc IH.
Qed.

Lemma pysum_zeros gw : all (fun x => x == 0) gw -> Np.pysum gw = 0.
Proof.
rewrite pysum_sum; elim: gw => [|x gw IH] /=; first by rewrite big_nil.
by case/andP=> /eqP -> /IH; rewrite big_cons add0r.
Qed.

Lemma cumsum_zeros gw :
  all (fun x => x == 0) gw -> all (fun x => x == 0) (Np.cumsum gw).
Proof.
rewrite /Np.cumsum; elim: gw => [|x gw IH] //= /andP[/eqP -> Hall].
by rewrite addr0 eqxx; apply: IH.
Qed.

Lemma teeth_zeros gw n r :
  all (fun x => x == 0) gw ->
  all (fun c => ~~ has (fun w => c < w) (Np.cumsum gw))
      (Np.comb_teeth (Np.pysum gw) n r).
Proof.
move=> Hz; rewrite (pysum_zeros Hz); apply/allP=> c /mapP[i _ ->].
rewrite mul0r mulr0; apply/hasPn=> w Hw.
by have /allP/(_ w Hw)/eqP -> := cumsum_zeros Hz; rewrite ltxx.
Qed.

Lemma comb_counts_zero gw (ntarget : nat) r :
  all (fun x => x == 0) gw -> (0 < ntarget)%N ->
  Handler.comb_counts gw ntarget r = inl Py.IndexError.
Proof.
move=> Hz gt0; have Hn := teeth_zeros ntarget r Hz.
by rewrite /Handler.comb_counts comb_walk_none // size_comb_teeth.
Qed.

(** X10. An ensemble whose weights are all zero.  With at least one tooth,
    the counting loop of handler.py runs off the end of the cumulative
    weights and raises [IndexError]; the scanning loop of walker.py finds
    no parent for any tooth and returns the identity assignment it started
    from. *)
Theorem comb_zero_weights gw (ntarget : nat) r :
  all (fun x => x == 0) gw -> (0 < ntarget)%N ->
  Handler.comb_counts gw ntarget r = inl Py.IndexError
  /\ Ensemble.comb_parents gw ntarget r = inr (iota 0 (size gw)).
Proof.
move=> Hz gt0; split; first exact: comb_counts_zero.
by rewrite /Ensemble.comb_parents assign_parents_none //; apply: teeth_zeros.
Qed.

(** X11. The comb step of handler.py on weights that are all zero (more
    than one walker in all, at least one on the process): the step raises
    [IndexError] after its one draw, and the walkers are as they were. *)
Theorem handler_comb_zero_weights (ws : Walkers) (g : Rng.state R) :
  Handler.ntot_walkers ws != 1%N -> (0 < Handler.nw ws)%N ->
  all (fun x : Walker => Handler.weight x == 0) (Handler.walkers ws) ->
  Handler.comb (ws, g) = Py.Raise Py.IndexError (ws, (Rng.random g).2).
Proof.
move=> /negbTE H1 gt0 Hz; rewrite /Handler.comb H1.
case Eg: (Rng.random g) => [r g'] /=.
have Hz' : all (fun x : R => x == 0)
               [seq `|Handler.weight x| | x : Walker <- Handler.walkers ws].
  by rewrite all_map; apply: sub_all Hz => x /= /eqP ->; rewrite normr0.
have gt1 : (0 < Handler.nw ws * 1)%N by rewrite muln1.
by rewrite (comb_counts_zero r Hz' gt1).
Qed.

End CombTotals.

Lemma comb_counts_total_witness :
  exists counts,
    [/\ Handler.comb_counts [:: 1; 3 : rat] 2 (1 / 2) = inr counts,
        size counts = 2%N & sumn counts = 2%N].
Proof.
apply: (@comb_counts_total rat [:: 1; 3] 2 (1 / 2)); by vm_compute.
Defined.

Lemma plan_balance_witness :
  exists send recv,
    [/\ Handler.plan [:: 2; 0]%N 0 2 [::] [::] = inr (send, recv),
        (size send + 2 = size recv + 2)%N
      & size send == size recv].
Proof.
by have [s [r [E Hs Hb]]] := @plan_balance [:: 2; 0]%N 2 isT; exists s, r.
Defined.

Lemma comb_zero_weights_witness :
  Handler.comb_counts [:: 0; 0 : rat] 2 (1 / 2) = inl Py.IndexError
  /\ Ensemble.comb_parents [:: 0; 0 : rat] 2 (1 / 2) = inr [:: 0; 1]%N.
Proof.
apply: (@comb_zero_weights rat [:: 0; 0] 2 (1 / 2)); by vm_compute.
Defined.

Definition half_rng : Rng.state rat := Rng.mk (fun _ => 1 / 2) 0.

Definition zero_ensemble : Handler.Walkers rat unit :=
  Handler.mkWalkers 2 2
    [:: Handler.mkWalker 0 true 0 tt; Handler.mkWalker 0 true 0 tt] 2.

Lemma handler_comb_zero_weights_witness :
  Handler.comb (zero_ensemble, half_rng)
  = Py.Raise Py.IndexError (zero_ensemble, (Rng.random half_rng).2).
Proof.
apply: (@handler_comb_zero_weights rat unit zero_ensemble half_rng); by vm_compute.
Defined.

(** ** FieldConfig: the store of field configurations *)

Section FieldBlocks.
Variables (F : Type) (R : Type) (C : Type).
Variables (zeroF : F) (zeroR : R) (zeroC : C).
Notation t := (FieldConfig.t F R C).
Notation entry := (seq F * R * C)%type.
Notation push_full := (@FieldConfig.push_full F R C zeroR zeroC).
Notation init := (@FieldConfig.init F R C zeroF zeroR zeroC).

(** Successive calls [push_full(config, cfac, wfac)], stopping at the first
    that raises. *)
Fixpoint push_fulls (xs : seq entry) (fc : t) : Py.exn + t :=
  match xs with
  | [::] => inr fc
  | x :: xs' =>
      match push_full x.1.1 x.1.2 x.2 fc with
      | inr fc' => push_fulls xs' fc'
      | inl e => inl e
      end
  end.

(** [l] with [ys] written from position [s] on. *)
Fixpoint patch {T} (d : T) (l : seq T) (s : nat) (ys : seq T) : seq T :=
  match ys with
  | [::] => l
  | y :: ys' => patch d (set_nth d l s y) s.+1 ys'
  end.

Lemma size_patch T (d : T) l s ys :
  (s + size ys <= size l)%N -> size (patch d l s ys) = size l.
Proof.
elim: ys l s => [|y ys IH] l s //=; rewrite addnS -addSn => le.
have lt : (s < size l)%N by apply: leq_trans le; rewrite ltnS leq_addr.
have E : size (set_nth d l s y) = size l.
  by rewrite size_set_nth; apply/maxn_idPr.
by rewrite IH E.
Qed.

Lemma nth_patch_before T (d : T) l s ys k :
  (k < s)%N -> nth d (patch d l s ys) k = nth d l k.
Proof.
elim: ys l s => [|y ys IH] l s //= lt.
by rewrite IH ?nth_set_nth /= ?(ltn_eqF lt) // ltnS ltnW.
Qed.

Lemma patch_slice T (d : T) l s ys :
  (s + size ys <= size l)%N -> take (size ys) (drop s (patch d l s ys)) = ys.
Proof.
elim: ys l s => [|y ys IH] l s /=; first by rewrite take0.
rewrite addnS -addSn => le.
have lt : (s < size l)%N by apply: leq_trans le; rewrite ltnS leq_addr.
have E : size (set_nth d l s y) = size l.
  by rewrite size_set_nth; apply/maxn_idPr.
have ltP : (s < size (patch d (set_nth d l s y) s.+1 ys))%N.
  by rewrite size_patch E.
rewrite (drop_nth d ltP) /= IH ?E // nth_patch_before //.
by rewrite nth_set_nth /= eqxx.
Qed.

Lemma patch_rcons T (d : T) l s ys y :
  patch d l s (rcons ys y) = set_nth d (patch d l s ys) (s + size ys) y.
Proof.
elim: ys l s => [|z ys IH] l s /=; first by rewrite addn0.
by rewrite IH addSnnS.
Qed.

Lemma push_fulls_rcons xs x fc :
  push_fulls (rcons xs x) fc
  = match push_fulls xs fc with
    | inr fc' => push_full x.1.1 x.1.2 x.2 fc'
    | inl e => inl e
    end.
Proof.
elim: xs fc => [|z xs IH] fc /=; first by case: (push_full _ _ _ _).
by case: (push_full _ _ _ _) => [e|fc'] //=.
Qed.

(** The state after steps that neither wrap around nor complete a block. *)
Definition written (xs : seq entry) (fc : t) : t :=
  FieldConfig.mk
    (patch [::] (FieldConfig.configs fc) (FieldConfig.step fc) [seq x.1.1 | x <- xs])
    (patch zeroR (FieldConfig.cos_fac fc) (FieldConfig.step fc) [seq x.1.2 | x <- xs])
    (patch zeroC (FieldConfig.weight_fac fc) (FieldConfig.step fc) [seq x.2 | x <- xs])
    (FieldConfig.step fc + size xs) (FieldConfig.block fc) (FieldConfig.ib fc)
    (FieldConfig.nfields fc) (FieldConfig.nbp fc) (FieldConfig.nprop_tot fc)
    (FieldConfig.nblock fc).

Lemma push_fulls_inside xs fc j i :
  size (FieldConfig.configs fc) = FieldConfig.nprop_tot fc ->
  (FieldConfig.step fc + size xs < FieldConfig.nprop_tot fc)%N ->
  FieldConfig.step fc = (j * FieldConfig.nbp fc + i)%N ->
  (i + size xs < FieldConfig.nbp fc)%N ->
  push_fulls xs fc = inr (written xs fc).
Proof.
elim: xs fc i => [|x xs IH] fc i /=.
  by case: fc => cfg cf wf st bl ib nf nb np nbl /= *; rewrite /written /= addn0.
rewrite !addnS -!addSn => Hsz Hlt Hst Hi.
have lt0 : (FieldConfig.step fc < FieldConfig.nprop_tot fc)%N.
  by apply: leq_trans Hlt; rewrite ltnS ltnW // ltnS leq_addr.
have lt1 : ((FieldConfig.step fc).+1 < FieldConfig.nprop_tot fc)%N.
  by apply: leq_ltn_trans Hlt; rewrite leq_addr.
have lti : (i.+1 < FieldConfig.nbp fc)%N.
  by apply: leq_ltn_trans Hi; rewrite leq_addr.
rewrite /FieldConfig.push_full Hsz lt0 /FieldConfig.advance.
case En: (FieldConfig.nprop_tot fc) lt0 lt1 => [|N] // _ lt1.
case Eb: (FieldConfig.nbp fc) lti => [|b] // lti.
rewrite (modn_small lt1) Hst Eb -addnS modnMDl (modn_small lti) /=.
rewrite -Eb -En addnS -Hst.
set fc1 := FieldConfig.mk _ _ _ _ _ _ _ _ _ _.
have -> : written (x :: xs) fc = written xs fc1.
  by rewrite /written /fc1 /= addSnnS.
apply: (IH fc1 i.+1); rewrite /fc1 /=.
- by rewrite size_set_nth Hsz; apply/maxn_idPr; rewrite En; apply: ltnW lt1.
- exact: Hlt.
- by rewrite addnS -Hst.
- exact: Hi.
Qed.

Lemma pyslice_patch T (d : T) l s ys :
  (s + size ys <= size l)%N ->
  FieldConfig.pyslice (Posz s) (Posz (s + size ys)) (patch d l s ys) = ys.
Proof.
move=> le; rewrite /FieldConfig.pyslice /FieldConfig.clamp size_patch //.
have /minn_idPl -> : (s <= size l)%N by apply: leq_trans le; rewrite leq_addr.
by move/minn_idPl: (le) => ->; rewrite addKn patch_slice.
Qed.

(** At a block boundary: the arrays have [nprop_tot] rows, [nprop_tot] is
    [nblock] blocks of [nbp > 0] steps, [step] is at the start of block [j],
    and [j] is the block index the next completed block will get. *)
Definition aligned (fc : t) (j : nat) : bool :=
  [&& size (FieldConfig.configs fc) == FieldConfig.nprop_tot fc,
      size (FieldConfig.cos_fac fc) == FieldConfig.nprop_tot fc,
      size (FieldConfig.weight_fac fc) == FieldConfig.nprop_tot fc,
      (0 < FieldConfig.nbp fc)%N,
      FieldConfig.nprop_tot fc == (FieldConfig.nblock fc * FieldConfig.nbp fc)%N,
      (j < FieldConfig.nblock fc)%N,
      FieldConfig.step fc == (j * FieldConfig.nbp fc)%N
    & modz (FieldConfig.block fc + 1) (Posz (FieldConfig.nblock fc)) == Posz j].

(** X12. Round trip through the store.  From a block boundary, after [nbp]
    calls of [push_full] the call [get_block] returns exactly the [nbp]
    configurations, cosine factors and weight factors just pushed, in
    order; the store is again at a block boundary, of the next block
    (cyclically), so this holds for every block pushed afterwards too. *)
Theorem push_full_get_block (xs : seq entry) (fc : t) (j : nat) :
  aligned fc j -> size xs = FieldConfig.nbp fc ->
  exists fc',
    [/\ push_fulls xs fc = inr fc',
        FieldConfig.get_block fc'
        = ([seq x.1.1 | x <- xs], [seq x.1.2 | x <- xs], [seq x.2 | x <- xs]),
        FieldConfig.block fc' = Posz j
      & aligned fc' (j.+1 %% FieldConfig.nblock fc)
        /\ FieldConfig.nblock fc' = FieldConfig.nblock fc].
Proof.
case/and5P=> /eqP Hc /eqP Hcf /eqP Hwf Hb /and4P[/eqP Hn Hj /eqP Hst /eqP Hbl].
case/lastP: xs => [|xs x]; first by move=> E; rewrite -E in Hb.
rewrite size_rcons => Hxs.
have step_next' : (j * FieldConfig.nbp fc + size xs).+1 = (j.+1 * FieldConfig.nbp fc)%N.
  by rewrite -addnS Hxs mulSn addnC.
have lt_in : (j * FieldConfig.nbp fc + size xs < FieldConfig.nprop_tot fc)%N.
  by rewrite Hn step_next' leq_mul2r Hj orbT.
have Hin : push_fulls xs fc = inr (written xs fc).
  apply: (@push_fulls_inside xs fc j 0) => //.
  - by rewrite Hst.
  - by rewrite Hst addn0.
  - by rewrite add0n -Hxs.
have step_next : (FieldConfig.step fc + size xs).+1 = (j.+1 * FieldConfig.nbp fc)%N.
  by rewrite Hst -addnS Hxs mulSn addnC.
have le_patch : (FieldConfig.step fc + size (rcons xs x) <= FieldConfig.nprop_tot fc)%N.
  by rewrite size_rcons addnS Hst.
rewrite push_fulls_rcons Hin /FieldConfig.push_full.
have -> : FieldConfig.step (written xs fc) = (FieldConfig.step fc + size xs)%N by [].
have -> : size (FieldConfig.configs (written xs fc)) = FieldConfig.nprop_tot fc.
  rewrite /written /= size_patch ?size_map ?Hc //.
  by rewrite Hst ltnW.
rewrite Hst lt_in /FieldConfig.advance.
have -> : FieldConfig.nprop_tot (written xs fc) = FieldConfig.nprop_tot fc by [].
have -> : FieldConfig.nbp (written xs fc) = FieldConfig.nbp fc by [].
have -> : FieldConfig.nblock (written xs fc) = FieldConfig.nblock fc by [].
have -> : FieldConfig.block (written xs fc) = FieldConfig.block fc by [].
rewrite -Hst step_next.
case En: (FieldConfig.nprop_tot fc) (lt_in) => [|N] // _.
case Eb: (FieldConfig.nbp fc) (Hb) => [|b] // _.
rewrite -En -Eb Hn -muln_modl modnMl eqxx /FieldConfig.next_block.
case Ek: (FieldConfig.nblock fc) (Hj) => [|nb] // _.
rewrite -Ek Hbl.
have Ecfg : forall T (d : T) l (ys : seq entry) (f : entry -> T) y,
    set_nth d (patch d l (FieldConfig.step fc) [seq f z | z <- ys])
            (FieldConfig.step fc + size ys) (f y)
    = patch d l (FieldConfig.step fc) [seq f z | z <- rcons ys y].
  by move=> T d l ys f y; rewrite map_rcons patch_rcons size_map.
eexists; split; first by [].
- rewrite /FieldConfig.get_block /=.
  have -> : (Posz j * Posz (FieldConfig.nbp fc))%R = Posz (FieldConfig.step fc).
    by rewrite Hst PoszM.
  have -> : ((Posz j + 1) * Posz (FieldConfig.nbp fc))%R
            = Posz (FieldConfig.step fc + size (rcons xs x)).
    by rewrite size_rcons addnS step_next PoszM -[j.+1]addn1 PoszD.
  rewrite (Ecfg _ [::] _ xs (fun z => z.1.1)) (Ecfg _ zeroR _ xs (fun z => z.1.2)).
  rewrite (Ecfg _ zeroC _ xs (fun z => z.2)).
  have P : forall T (d : T) l (f : entry -> T),
      size l = FieldConfig.nprop_tot fc ->
      FieldConfig.pyslice (Posz (FieldConfig.step fc))
        (Posz (FieldConfig.step fc + size (rcons xs x)))
        (patch d l (FieldConfig.step fc) [seq f z | z <- rcons xs x])
      = [seq f z | z <- rcons xs x].
    move=> T d l f El; rewrite -[size (rcons xs x)](size_map f).
    by apply: pyslice_patch; rewrite size_map El.
  by rewrite !P.
- by [].
- split=> //; rewrite /aligned /=.
  rewrite (Ecfg _ [::] _ xs (fun z => z.1.1)) (Ecfg _ zeroR _ xs (fun z => z.1.2)).
  rewrite (Ecfg _ zeroC _ xs (fun z => z.2)).
  rewrite !size_patch ?size_map ?Hc ?Hcf ?Hwf // -!Hn !eqxx Hb ltn_mod.
  by rewrite (leq_ltn_trans (leq0n j) Hj) /= addrC -intS modz_nat.
Qed.

Lemma get_block_unstarted (fc : t) :
  FieldConfig.block fc = -1 -> FieldConfig.get_block fc = ([::], [::], [::]).
Proof.
move=> Eb; rewrite /FieldConfig.get_block Eb addNr mul0r.
by rewrite /FieldConfig.pyslice /= !min0n !sub0n !take0.
Qed.

(** X13. A new store whose length [nprop_tot > 0] is a whole number of
    blocks of [nbp > 0] steps is at the boundary of block 0, so the round
    trip above applies to it; and [get_block] on it returns empty
    arrays. *)
Theorem init_aligned (nfields nprop_tot nbp : nat) :
  (0 < nbp)%N -> (0 < nprop_tot)%N -> (nbp %| nprop_tot)%N ->
  exists fc,
    [/\ init nfields nprop_tot nbp = inr fc, aligned fc 0,
        FieldConfig.nbp fc = nbp
      & FieldConfig.get_block fc = ([::], [::], [::])].
Proof.
case: nbp => [|b] // _ gt0 Hd; rewrite /FieldConfig.init.
eexists; split; [by []| |by []|exact: get_block_unstarted].
rewrite /aligned /= !size_nseq !eqxx divnK // eqxx /=.
by rewrite divn_gt0 // dvdn_leq //= addNr mod0z.
Qed.

(** X14. Until the first block is completed, [get_block] returns empty
    arrays: after fewer than [nbp] steps pushed into a new store (and fewer
    than its length), the block index is still -1 and the slice is
    [[-nbp:0]]. *)
Theorem get_block_before_first_block (nfields nprop_tot nbp : nat)
    (xs : seq entry) :
  (size xs < nbp)%N -> (size xs < nprop_tot)%N ->
  exists fc0 fc,
    [/\ init nfields nprop_tot nbp = inr fc0, push_fulls xs fc0 = inr fc,
        FieldConfig.step fc = size xs, FieldConfig.block fc = -1
      & FieldConfig.get_block fc = ([::], [::], [::])].
Proof.
case: nbp => [|b] // Hb Hn; rewrite /FieldConfig.init.
set fc0 := FieldConfig.mk _ _ _ _ _ _ _ _ _ _.
have Hin : push_fulls xs fc0 = inr (written xs fc0).
  by apply: (@push_fulls_inside xs fc0 0 0); rewrite /fc0 /= ?size_nseq.
exists fc0, (written xs fc0); split=> //.
exact: get_block_unstarted.
Qed.

(** X15. A store shorter than one block ([nprop_tot < nbp]) has
    [nblock = 0]: the push that completes its first pass raises
    [ZeroDivisionError] when it moves to the next block; if the store has
    no row at all the first push raises [IndexError]. *)
Theorem store_shorter_than_block (nfields nprop_tot nbp : nat)
    (xs : seq entry) (x : entry) :
  (nprop_tot < nbp)%N -> size xs = nprop_tot.-1 ->
  exists fc0,
    init nfields nprop_tot nbp = inr fc0
    /\ push_fulls (rcons xs x) fc0
       = inl (if nprop_tot is 0%N then Py.IndexError else Py.ZeroDivisionError).
Proof.
case: nbp => [|b] // Hlt Hxs; rewrite /FieldConfig.init.
eexists; split; first by [].
rewrite push_fulls_rcons.
case: nprop_tot Hlt Hxs => [|N] Hlt Hxs.
  by move/size0nil: Hxs => ->.
move: Hxs => /= Hxs.
set fc0 := FieldConfig.mk _ _ _ _ _ _ _ _ _ _.
have Hin : push_fulls xs fc0 = inr (written xs fc0).
  apply: (@push_fulls_inside xs fc0 0 0); rewrite /fc0 /= ?size_nseq ?Hxs //.
  by rewrite add0n (leq_trans _ Hlt).
rewrite Hin /FieldConfig.push_full.
have -> : FieldConfig.step (written xs fc0) = N by rewrite /written /= add0n.
have -> : size (FieldConfig.configs (written xs fc0)) = N.+1.
  by rewrite /written /= size_patch ?size_map /= ?size_nseq ?Hxs.
rewrite ltnSn /FieldConfig.advance.
have -> : FieldConfig.nprop_tot (written xs fc0) = N.+1 by [].
have -> : FieldConfig.nbp (written xs fc0) = b.+1 by [].
have -> : FieldConfig.nblock (written xs fc0) = (N.+1 %/ b.+1)%N by [].
have -> : FieldConfig.step (written xs fc0) = N by rewrite /written /= add0n.
by rewrite modnn mod0n eqxx divn_small.
Qed.

Lemma pyslice_to T (stop : int) (l : seq T) :
  FieldConfig.pyslice 0 stop l = take (FieldConfig.clamp (size l) stop) l.
Proof. by rewrite /FieldConfig.pyslice /= min0n subn0 drop0. Qed.

(** X16. [get_superblock] cuts the last [nbp] rows off each array.  When
    the store is shorter than a block the end index [nprop_tot - nbp] is
    negative and Python counts it from the end, leaving
    [2 * nprop_tot - nbp] rows (none if that is negative). *)
Theorem get_superblock_rows (fc : t) :
  size (FieldConfig.configs fc) = FieldConfig.nprop_tot fc ->
  size (FieldConfig.cos_fac fc) = FieldConfig.nprop_tot fc ->
  size (FieldConfig.weight_fac fc) = FieldConfig.nprop_tot fc ->
  let n := if (FieldConfig.nbp fc <= FieldConfig.nprop_tot fc)%N
           then (FieldConfig.nprop_tot fc - FieldConfig.nbp fc)%N
           else (FieldConfig.nprop_tot fc
                 - (FieldConfig.nbp fc - FieldConfig.nprop_tot fc))%N in
  FieldConfig.get_superblock fc
  = (take n (FieldConfig.configs fc), take n (FieldConfig.cos_fac fc),
     take n (FieldConfig.weight_fac fc)).
Proof.
move=> Hc Hcf Hwf n; rewrite /FieldConfig.get_superblock !pyslice_to Hc Hcf Hwf.
suff -> : FieldConfig.clamp (FieldConfig.nprop_tot fc)
            (Posz (FieldConfig.nprop_tot fc) - Posz (FieldConfig.nbp fc)) = n by [].
rewrite /n; case: leqP => [le|lt].
  by rewrite subzn //= (minn_idPl _) // leq_subr.
have -> : (Posz (FieldConfig.nprop_tot fc) - Posz (FieldConfig.nbp fc))%R
          = Negz (FieldConfig.nbp fc - FieldConfig.nprop_tot fc).-1.
  by rewrite NegzE prednK ?subn_gt0 // -subzn ?opprB // ltnW.
by rewrite /= prednK ?subn_gt0.
Qed.

Notation push := (@FieldConfig.push F R C zeroF).

(** Successive calls [push(config)], one field value each. *)
Fixpoint pushes (ys : seq F) (fc : t) : Py.exn + t :=
  match ys with
  | [::] => inr fc
  | y :: ys' =>
      match push y fc with
      | inr fc' => pushes ys' fc'
      | inl e => inl e
      end
  end.

Lemma set_nth_same T (d : T) l s : (s < size l)%N -> set_nth d l s (nth d l s) = l.
Proof. by elim: l s => [|x l IH] [|s] //= lt; rewrite IH. Qed.

Lemma take_set_nth_rcons T (d : T) l s y :
  (s < size l)%N -> take s.+1 (set_nth d l s y) = rcons (take s l) y.
Proof.
elim: l s => [|x l IH] [|s] //= lt; first by rewrite take0.
by rewrite IH.
Qed.

Lemma patch_to_end T (d : T) l s ys :
  (s + size ys)%N = size l -> patch d l s ys = take s l ++ ys.
Proof.
elim: ys l s => [|y ys IH] l s /=.
  by rewrite addn0 cats0 => ->; rewrite take_size.
rewrite addnS -addSn => E.
have lt : (s < size l)%N by rewrite -E ltnS leq_addr.
have Es : size (set_nth d l s y) = size l.
  by rewrite size_set_nth; apply/maxn_idPr.
by rewrite IH ?Es // take_set_nth_rcons // cat_rcons.
Qed.

Lemma pushes_rcons ys y fc :
  pushes (rcons ys y) fc
  = match pushes ys fc with
    | inr fc' => push y fc'
    | inl e => inl e
    end.
Proof.
elim: ys fc => [|z ys IH] fc /=; first by case: (push _ _).
by case: (push _ _) => [e|fc'] //=.
Qed.

(** The state after field values that do not complete the row. *)
Definition row_written (ys : seq F) (fc : t) : t :=
  FieldConfig.mk
    (set_nth [::] (FieldConfig.configs fc) (FieldConfig.step fc)
       (patch zeroF (nth [::] (FieldConfig.configs fc) (FieldConfig.step fc))
              (FieldConfig.ib fc) ys))
    (FieldConfig.cos_fac fc) (FieldConfig.weight_fac fc)
    (FieldConfig.step fc) (FieldConfig.block fc) (FieldConfig.ib fc + size ys)
    (FieldConfig.nfields fc) (FieldConfig.nbp fc) (FieldConfig.nprop_tot fc)
    (FieldConfig.nblock fc).

Lemma pushes_inside ys fc :
  (FieldConfig.step fc < size (FieldConfig.configs fc))%N ->
  (FieldConfig.ib fc + size ys < FieldConfig.nfields fc)%N ->
  pushes ys fc = inr (row_written ys fc).
Proof.
elim: ys fc => [|y ys IH] fc /= Hst.
  rewrite /row_written /= addn0 set_nth_same // => _.
  by case: fc {Hst}.
rewrite addnS -addSn => Hib.
have lt0 : (FieldConfig.ib fc < FieldConfig.nfields fc)%N.
  by apply: leq_trans Hib; rewrite ltnS ltnW // ltnS leq_addr.
have lt1 : ((FieldConfig.ib fc).+1 < FieldConfig.nfields fc)%N.
  by apply: leq_ltn_trans Hib; rewrite leq_addr.
rewrite /FieldConfig.push Hst lt0 /= (modn_small lt1) /=.
set fc1 := FieldConfig.mk _ _ _ _ _ _ _ _ _ _.
have -> : row_written (y :: ys) fc = row_written ys fc1.
  rewrite /row_written /fc1 /= addSnnS nth_set_nth /= eqxx.
  by rewrite set_set_nth eqxx.
apply: IH; rewrite /fc1 //=.
by rewrite size_set_nth; apply/(leq_trans Hst)/leq_maxr.
Qed.

(** X17. Pushing the fields of one step one at a time with [push] is the
    same as one [push_full] of the whole row that leaves the cosine and
    weight factors of that step as they are: same store, or the same
    exception. *)
Theorem pushes_is_push_full (row : seq F) (fc : t) :
  FieldConfig.ib fc = 0%N -> (0 < FieldConfig.nfields fc)%N ->
  size row = FieldConfig.nfields fc ->
  (FieldConfig.step fc < size (FieldConfig.configs fc))%N ->
  size (nth [::] (FieldConfig.configs fc) (FieldConfig.step fc))
    = FieldConfig.nfields fc ->
  (FieldConfig.step fc < size (FieldConfig.cos_fac fc))%N ->
  (FieldConfig.step fc < size (FieldConfig.weight_fac fc))%N ->
  pushes row fc
  = push_full row (nth zeroR (FieldConfig.cos_fac fc) (FieldConfig.step fc))
      (nth zeroC (FieldConfig.weight_fac fc) (FieldConfig.step fc)) fc.
Proof.
move=> Hib Hnf; case/lastP: row => [|ys y]; first by move=> E; rewrite -E in Hnf.
rewrite size_rcons => Hsz Hst Hrow Hcf Hwf.
have Hin : pushes ys fc = inr (row_written ys fc).
  by apply: pushes_inside => //; rewrite Hib add0n -Hsz.
rewrite pushes_rcons Hin /FieldConfig.push_full Hst !set_nth_same //.
rewrite /FieldConfig.push.
have -> : FieldConfig.step (row_written ys fc) = FieldConfig.step fc by [].
have -> : FieldConfig.ib (row_written ys fc) = size ys by rewrite /= Hib.
have -> : FieldConfig.nfields (row_written ys fc) = FieldConfig.nfields fc by [].
have -> : size (FieldConfig.configs (row_written ys fc))
          = size (FieldConfig.configs fc).
  by rewrite /= size_set_nth; apply/maxn_idPr.
rewrite Hst -Hsz ltnSn /= modnn eqxx.
rewrite nth_set_nth /= eqxx set_set_nth eqxx Hib.
have -> : set_nth zeroF
            (patch zeroF (nth [::] (FieldConfig.configs fc) (FieldConfig.step fc)) 0 ys)
            (size ys) y = rcons ys y.
  rewrite -[size ys]add0n -patch_rcons patch_to_end ?take0 //.
  by rewrite add0n size_rcons Hrow.
by rewrite /FieldConfig.advance /=.
Qed.

End FieldBlocks.

Definition one_step (k : nat) : seq nat * rat * rat := ([:: k], k%:R, k%:R).

Definition fresh_store : FieldConfig.t nat rat rat :=
  FieldConfig.mk [:: [:: 0%N]; [:: 0%N]; [:: 0%N]; [:: 0%N]] [:: 0; 0; 0; 0]
    [:: 0; 0; 0; 0] 0 (-1) 0 1 2 4 2.

Lemma push_full_get_block_witness :
  exists fc',
    [/\ push_fulls 0 0 [:: one_step 5; one_step 7] fresh_store = inr fc',
        FieldConfig.get_block fc'
        = ([:: [:: 5%N]; [:: 7%N]], [:: 5%:R; 7%:R], [:: 5%:R; 7%:R]),
        FieldConfig.block fc' = 0
      & aligned fc' 1 /\ FieldConfig.nblock fc' = 2%N].
Proof.
by apply: (@push_full_get_block nat rat rat 0 0 [:: one_step 5; one_step 7]
             fresh_store 0).
Defined.

Lemma init_aligned_witness :
  exists fc,
    [/\ FieldConfig.init 0%N (0 : rat) (0 : rat) 1 4 2 = inr fc, aligned fc 0,
        FieldConfig.nbp fc = 2%N
      & FieldConfig.get_block fc = ([::], [::], [::])].
Proof. by apply: (@init_aligned nat rat rat 0%N 0 0 1 4 2). Defined.

Lemma get_block_before_first_block_witness :
  exists fc0 fc,
    [/\ FieldConfig.init 0%N (0 : rat) (0 : rat) 1 4 2 = inr fc0,
        push_fulls 0 0 [:: one_step 5] fc0 = inr fc,
        FieldConfig.step fc = 1%N, FieldConfig.block fc = -1
      & FieldConfig.get_block fc = ([::], [::], [::])].
Proof.
by apply: (@get_block_before_first_block nat rat rat 0%N 0 0 1 4 2 [:: one_step 5]).
Defined.

Lemma store_shorter_than_block_witness :
  exists fc0,
    FieldConfig.init 0%N (0 : rat) (0 : rat) 1 2 3 = inr fc0
    /\ push_fulls 0 0 [:: one_step 5; one_step 7] fc0 = inl Py.ZeroDivisionError.
Proof.
by apply: (@store_shorter_than_block nat rat rat 0%N 0 0 1 2 3 [:: one_step 5]
             (one_step 7)).
Defined.

Lemma get_superblock_rows_witness :
  FieldConfig.get_superblock fresh_store
  = ([:: [:: 0%N]; [:: 0%N]], [:: 0; 0], [:: 0; 0]).
Proof. by apply: (@get_superblock_rows nat rat rat fresh_store). Defined.

Lemma pushes_is_push_full_witness :
  pushes 0%N [:: 9%N] fresh_store
  = FieldConfig.push_full 0 0 [:: 9%N] 0 0 fresh_store.
Proof.
by apply: (@pushes_is_push_full nat rat rat 0%N 0 0 [:: 9%N] fresh_store).
Defined.

(** ** branching: the cloning and sorting after the search *)

Section BranchBody.
Variable R : realFieldType.
Variable C : fieldType.
Variables nbasis nup ndown : nat.
Variable floor : R -> int.
Notation Walker := (SingleDet.Walker R C nbasis nup ndown).
Notation Walkers := (Ensemble.Walkers R C nbasis nup ndown).
Implicit Types (l : seq Walker) (ws : Walkers) (g : Rng.state R)
  (m : Ensemble.marks).

(** The marks point into a list of [n] walkers. *)
Definition bounded m (n : nat) : bool :=
  [&& all (fun i => i < n)%N (Ensemble.iclone m),
      all (fun i => i < n)%N (Ensemble.ikill m)
    & size (Ensemble.iclone m) == size (Ensemble.nclone m)].

Lemma bounded_leq m n n' : (n <= n')%N -> bounded m n -> bounded m n'.
Proof.
move=> le /and3P[H1 H2 H3]; apply/and3P; split=> //.
- by apply: sub_all H1 => i lt; apply: leq_trans le.
- by apply: sub_all H2 => i lt; apply: leq_trans le.
Qed.

Lemma branch_one_bounded (wmax wmin : R) i r (w : Walker) m n :
  (i < n)%N -> bounded m n ->
  exists w' m',
    Ensemble.branch_one floor (Config.Num wmax) (Config.Num wmin) i r w m
      = inr (w', m')
    /\ bounded m' n.
Proof.
move=> lt Hb; have /and3P[H1 H2 H3] := Hb.
rewrite /Ensemble.branch_one /=; case: ifP => _.
  eexists _, _; split; first by [].
  by rewrite /bounded /= all_rcons lt H1 H2 !size_rcons eqSS.
case: ifP => _; last by exists w, m.
case: ifP => _; last by exists w, m.
eexists _, _; split; first by [].
by rewrite /bounded /= all_rcons lt H1 H2.
Qed.

Lemma search_bounded (wmax wmin : R) i l g m :
  bounded m (i + size l) ->
  exists l' m',
    [/\ Ensemble.search floor (Config.Num wmax) (Config.Num wmin) i l g m
          = inr (l', Rng.mk (Rng.stream g) (Rng.pos g + size l), m'),
        size l' = size l & bounded m' (i + size l)].
Proof.
elim: l i g m => [|w l IH] i g m /= Hb.
  by exists [::], m; split=> //; case: g => st p; rewrite addn0.
have lt : (i < i + (size l).+1)%N by rewrite -addn1 leq_add2l.
have [w1 [m1 [-> Hb1]]] :=
  branch_one_bounded wmax wmin (Rng.stream g (Rng.pos g)) w lt Hb.
have Hb1' : bounded m1 (i.+1 + size l) by rewrite addSnnS.
have [l' [m' [-> Hsz Hb']]] := IH i.+1 (Rng.mk (Rng.stream g) (Rng.pos g).+1) m1 Hb1'.
exists (w1 :: l'), m'; split.
- by rewrite /= addSnnS.
- by rewrite /= Hsz.
- by rewrite -addSnnS.
Qed.

Lemma getitem_lt l i : (i < size l)%N -> exists w, Ensemble.getitem l i = inr w.
Proof.
rewrite /Ensemble.getitem => lt.
case E: (drop i l) => [|w l']; last by exists w.
by move: (size_drop i l); rewrite E /= => /esym/eqP; rewrite subn_eq0 leqNgt lt.
Qed.

Lemma place_copy_ok kill ic l ncopy :
  (ic < size l)%N -> all (fun i => i < size l)%N kill ->
  exists l' ncopy',
    Ensemble.place_copy kill ic (l, ncopy) = inr (l', ncopy')
    /\ (size l <= size l')%N.
Proof.
move=> lt Hk; rewrite /Ensemble.place_copy; have [w ->] := getitem_lt lt.
case: (leqP (size kill) ncopy) => [_|ltk].
  by eexists _, _; split; [by []|rewrite size_rcons].
have -> : (nth 0%N kill ncopy < size l)%N by apply: (all_nthP 0%N Hk).
eexists _, _; split; first by [].
by rewrite size_set_nth leq_maxr.
Qed.

Lemma place_copies_cons kill ic ix ixs (st : seq Walker * nat) :
  Ensemble.place_copies kill ic (ix :: ixs) st
  = match Ensemble.place_copy kill ic st with
    | inl e => inl e
    | inr st' => Ensemble.place_copies kill ic ixs st'
    end.
Proof. by []. Qed.

Lemma clone_cons kill ic nc (todo : seq (nat * int)) (st : seq Walker * nat) :
  Ensemble.clone kill ((ic, nc) :: todo) st
  = match Ensemble.place_copies kill ic (Ensemble.range0 nc) st with
    | inl e => inl e
    | inr st' => Ensemble.clone kill todo st'
    end.
Proof. by []. Qed.

Lemma place_copies_ok kill ic ixs l ncopy :
  (ic < size l)%N -> all (fun i => i < size l)%N kill ->
  exists l' ncopy',
    Ensemble.place_copies kill ic ixs (l, ncopy) = inr (l', ncopy')
    /\ (size l <= size l')%N.
Proof.
elim: ixs l ncopy => [|ix ixs IH] l ncopy lt Hk; first by exists l, ncopy.
have [l1 [n1 [E le1]]] := place_copy_ok ncopy lt Hk.
rewrite place_copies_cons E.
have lt1 : (ic < size l1)%N by apply: leq_trans le1.
have Hk1 : all (fun i => i < size l1)%N kill.
  by apply: sub_all Hk => i Hi; apply: leq_trans le1.
have [l2 [n2 [-> le2]]] := IH l1 n1 lt1 Hk1.
by exists l2, n2; split=> //; apply: leq_trans le2.
Qed.

Lemma clone_ok kill (todo : seq (nat * int)) l ncopy :
  all (fun x => x.1 < size l)%N todo -> all (fun i => i < size l)%N kill ->
  exists l' ncopy',
    Ensemble.clone kill todo (l, ncopy) = inr (l', ncopy')
    /\ (size l <= size l')%N.
Proof.
elim: todo l ncopy => [|[ic nc] todo IH] l ncopy; first by exists l, ncopy.
rewrite clone_cons => /andP[lt Ht] Hk.
have [l1 [n1 [-> le1]]] := place_copies_ok (Ensemble.range0 nc) ncopy lt Hk.
have Ht1 : all (fun x : nat * int => x.1 < size l1)%N todo.
  by apply: sub_all Ht => x Hx; apply: leq_trans le1.
have Hk1 : all (fun i => i < size l1)%N kill.
  by apply: sub_all Hk => i Hi; apply: leq_trans le1.
have [l2 [n2 [-> le2]]] := IH l1 n1 Ht1 Hk1.
by exists l2, n2; split=> //; apply: leq_trans le2.
Qed.

Lemma all_zip_fst (P : pred nat) (s : seq nat) (t : seq int) :
  all P s -> all (fun x : nat * int => P x.1) (zip s t).
Proof.
elim: s t => [|x s IH] [|y t] //= /andP[-> Hs] /=.
exact: IH.
Qed.

(** X18. With numeric thresholds the part of [branching] that follows the
    rescaling cannot fail: the marks of the search always point at existing
    walkers, so every copy finds its source and its slot.  One number is
    drawn per walker; the list never gets shorter; afterwards it is the
    alive walkers followed by the dead ones, [nw] is the number of alive
    walkers and [total_weight] the sum of their weights. *)
Theorem branch_body_returns ws g (wmax wmin : R) :
  Ensemble.wmax ws = Config.Num wmax -> Ensemble.wmin ws = Config.Num wmin ->
  exists ws' a d,
    [/\ Ensemble.branch_body floor (ws, g)
          = Py.Ok tt (ws', Rng.mk (Rng.stream g)
                             (Rng.pos g + size (Ensemble.walkers ws))),
        (size (Ensemble.walkers ws) <= size (Ensemble.walkers ws'))%N,
        Ensemble.walkers ws' = a ++ d
          /\ all (@SingleDet.alive R C nbasis nup ndown) a
          /\ all (fun w => ~~ SingleDet.alive w) d,
        Ensemble.nw ws' = size a
      & Ensemble.total_weight ws' = Ensemble.alive_weight (Ensemble.walkers ws')].
Proof.
move=> Emax Emin; rewrite /Ensemble.branch_body Emax Emin.
have Hb0 : bounded (Ensemble.mkMarks [::] [::] [::]) (0 + size (Ensemble.walkers ws)).
  by [].
have [l [m [-> Hsz /and3P[H1 H2 H3]]]] :=
  search_bounded wmax wmin g Hb0.
rewrite add0n -Hsz in H1 H2.
have Ht : all (fun x : nat * int => x.1 < size l)%N
              (zip (Ensemble.iclone m) (Ensemble.nclone m)).
  exact: (all_zip_fst (P := fun i => (i < size l)%N) _ H1).
have [l' [n' [-> le]]] := clone_ok 0 Ht H2.
exists (Ensemble.calculate_nwalkers (Ensemble.calculate_total_weight
          (Ensemble.set_walkers (Ensemble.sort_alive l') ws))),
       [seq w <- l' | SingleDet.alive w],
       [seq w <- l' | ~~ SingleDet.alive w].
split=> //.
- rewrite /= /Ensemble.sort_alive size_cat !size_filter count_predC.
  by rewrite -Hsz.
- by rewrite /= !filter_all.
- rewrite /= /Ensemble.sort_alive count_cat size_filter -!size_filter.
  rewrite -!filter_predI.
  have -> : [seq x <- l' | predI (@SingleDet.alive R C nbasis nup ndown)
                             (fun w => ~~ SingleDet.alive w) x] = [::].
    by rewrite -(filter_pred0 l'); apply: eq_filter => w /=; rewrite andbN.
  rewrite addn0; congr (size _); apply: eq_filter => w /=.
  by rewrite andbb.
Qed.

End BranchBody.

Definition two_walkers : Ensemble.Walkers rat rat 1 1 1 :=
  empty_ensemble (Config.Num 2) [:: unit_walker 1; unit_walker 5].

Lemma branch_body_returns_witness :
  exists ws' a d,
    [/\ Ensemble.branch_body (fun _ => 0) (two_walkers, half_rng)
          = Py.Ok tt (ws', Rng.mk (Rng.stream half_rng) (Rng.pos half_rng + 2)),
        (2 <= size (Ensemble.walkers ws'))%N,
        Ensemble.walkers ws' = a ++ d
          /\ all (@SingleDet.alive rat rat 1 1 1) a
          /\ all (fun w => ~~ SingleDet.alive w) d,
        Ensemble.nw ws' = size a
      & Ensemble.total_weight ws' = Ensemble.alive_weight (Ensemble.walkers ws')].
Proof.
exact: (@branch_body_returns rat rat 1 1 1 (fun _ => 0) two_walkers half_rng
          4 (5 / 100) erefl erefl).
Defined.

(** ** The constrained sweep of the thermal propagator *)

Section ThermalProps.
Variable R : realFieldType.
Variable C : fieldType.
Variable re : C -> R.
Variable exp : R -> R.
Variable St : Type.
Variable stack_update : (bool -> nat -> nat -> C) -> St -> St.
Variable time_slice : St -> nat.
Variable ntime_slices : St -> nat.
Variable greens_function : St -> int -> bool -> nat -> nat -> C.
Variable p : ThermalDiscrete.Propagator C.
Notation sweep := (ThermalDiscrete.sweep R C St).
Notation Walker := (ThermalDiscrete.Walker R C St).
Notation site := (ThermalDiscrete.constrained_site re exp p).
Notation sites := (ThermalDiscrete.constrained_sites re exp p).
Notation constrained :=
  (ThermalDiscrete.propagate_walker_constrained re exp stack_update time_slice
     ntime_slices greens_function p).
Notation propagate_gf :=
  (@ThermalDiscrete.propagate_greens_function R C St time_slice ntime_slices p).
Notation wgt s := (ThermalDiscrete.weight (ThermalDiscrete.walker s)).
Notation gfn s := (ThermalDiscrete.G (ThermalDiscrete.walker s)).
Implicit Types (s : sweep) (eshift : R) (g : ThermalDiscrete.gf C).

(** X19. In the constrained sweep the field that is drawn always has a
    positive clipped ratio (for a draw [0 <= r < 1]), and therefore the two
    denominators of [update_greens_function] for that field, which are the
    factors of that ratio, are not zero: the update never divides by
    zero. *)
Theorem drawn_field_denominators g (i : nat) (r : R) :
  re 0 = 0 -> 0 <= r < 1 ->
  let probs := ThermalDiscrete.calculate_overlap_ratio p g i in
  let c := (Num.max (re probs.1) 0, Num.max (re probs.2) 0) in
  let norm := c.1 + c.2 in
  0 < norm ->
  let xi := ~~ (r < c.1 / norm) in
  0 < (if xi then c.2 else c.1)
  /\ forall spin, 1 + (1 - g spin i i) * ThermalDiscrete.delta p xi spin != 0.
Proof.
move=> re0 /andP[r0 r1] probs c norm gt0 xi.
have Hc : 0 < (if xi then c.2 else c.1).
  rewrite /xi; case Er: (r < c.1 / norm) => /=.
    have : 0 < c.1 / norm by apply: (le_lt_trans r0 Er).
    by rewrite pmulr_lgt0 // invr_gt0.
  have le : c.1 / norm <= r by rewrite leNgt Er.
  have : c.1 / norm < 1 by apply: (le_lt_trans le r1).
  by rewrite ltr_pdivrMr // mul1r /norm -subr_gt0 addrC addKr.
split=> // spin.
have Hre : 0 < re (if xi then probs.2 else probs.1).
  by move: Hc; case: (xi); rewrite /c /= lt_max ltxx orbF.
have nz : (if xi then probs.2 else probs.1) != 0.
  by apply/eqP=> E; rewrite E re0 ltxx in Hre.
move: nz; rewrite /probs /ThermalDiscrete.calculate_overlap_ratio /=.
by case: (xi); rewrite !mulf_eq0 !negb_or => /andP[_ /andP[Hu Hd]]; case: spin.
Qed.

Lemma propagate_gf_weight (w : Walker) :
  ThermalDiscrete.weight (propagate_gf w) = ThermalDiscrete.weight w.
Proof. by rewrite /ThermalDiscrete.propagate_greens_function; case: ifP. Qed.

(** What one site does to the weight: the factor of site [k] of the sweep
    started at [s]. *)
Definition site_factor eshift s (k : nat) : R :=
  let n := site_norm re p (before re exp p eshift s k) k in
  if 0 < n then n * exp eshift else 0.

Lemma before_next eshift s k :
  before re exp p eshift s k.+1 = site eshift k (before re exp p eshift s k).
Proof. by rewrite /before -addn1 iotaD foldl_cat. Qed.

Lemma before_weight eshift s k :
  wgt (before re exp p eshift s k)
  = wgt s * \prod_(0 <= j < k) site_factor eshift s j.
Proof.
elim: k => [|k IH]; first by rewrite big_geq // mulr1.
rewrite before_next site_weight big_nat_recr //= mulrA -IH /site_factor.
by case: ifP => _; rewrite ?mulr0 // mulrA.
Qed.

(** X20. The weight after [propagate_walker_constrained].  With
    [nstblz > 0] the call returns; the weight has been multiplied, site
    after site, by [norm * exp(eshift)] where the norm is positive and by 0
    where it is not, and nothing after the site loop touches it; one number
    has been drawn per site.  A weight that is not negative stays so when
    [exp(eshift)] is not negative. *)
Theorem constrained_weight_product eshift s :
  ThermalDiscrete.nstblz p != 0%N ->
  exists s',
    [/\ constrained eshift s = Py.Ok tt s',
        wgt s' = wgt s * \prod_(0 <= j < ThermalDiscrete.nbasis p)
                           site_factor eshift s j,
        Rng.pos (ThermalDiscrete.rng s')
        = (Rng.pos (ThermalDiscrete.rng s) + ThermalDiscrete.nbasis p)%N
      & (0 <= wgt s) && (0 <= exp eshift) ==> (0 <= wgt s')].
Proof.
move=> nz; rewrite /ThermalDiscrete.propagate_walker_constrained.
rewrite /ThermalDiscrete.finish_slice.
case En: (ThermalDiscrete.nstblz p) nz => [|n] // _.
have Ew : wgt (sites eshift s)
          = wgt s * \prod_(0 <= j < ThermalDiscrete.nbasis p) site_factor eshift s j.
  by rewrite -before_weight.
eexists; split; first by [].
- by rewrite /= propagate_gf_weight; case: ifP.
- by rewrite /= /ThermalDiscrete.constrained_sites foldl_site_pos size_iota.
- rewrite /= propagate_gf_weight.
  have -> : forall b (x y : ThermalDiscrete.gf C) (st : St) (w : R),
      ThermalDiscrete.weight
        (if b then ThermalDiscrete.mkWalker w x st
         else ThermalDiscrete.mkWalker w y st) = w by move=> [].
  rewrite Ew; apply/implyP=> /andP[w0 e0]; apply: mulr_ge0 => //.
  apply: prodr_ge0 => j _; rewrite /site_factor.
  by case: ifP => // /ltW n0; apply: mulr_ge0.
Qed.

(** X21. With [nstblz = 0] the call raises [ZeroDivisionError] at the
    test [time_slice % nstblz], that is after the site loop and after the
    slice has been pushed on the stack: the weight, the Green's function,
    [BV] and the generator are those the whole sweep has produced. *)
Theorem constrained_zero_nstblz eshift s :
  ThermalDiscrete.nstblz p = 0%N ->
  exists s',
    [/\ constrained eshift s = Py.Raise Py.ZeroDivisionError s',
        wgt s' = wgt (sites eshift s) /\ gfn s' = gfn (sites eshift s),
        ThermalDiscrete.BV s' = ThermalDiscrete.BV (sites eshift s),
        ThermalDiscrete.rng s' = ThermalDiscrete.rng (sites eshift s)
      & ThermalDiscrete.stack (ThermalDiscrete.walker s')
        = stack_update
            (ThermalDiscrete.einsum_BV_BH1 p (ThermalDiscrete.BV (sites eshift s)))
            (ThermalDiscrete.stack (ThermalDiscrete.walker (sites eshift s)))].
Proof.
move=> E0; rewrite /ThermalDiscrete.propagate_walker_constrained.
by rewrite /ThermalDiscrete.finish_slice E0; eexists; split.
Qed.

(** The trace of one spin block over the lattice sites. *)
Definition gtrace (a : nat -> nat -> C) : C :=
  \sum_(i <- iota 0 (ThermalDiscrete.nbasis p)) a i i.

(** X22. [propagate_greens_function] is a similarity transformation: when
    [BT_inv] is the inverse of [BT] on the lattice, the trace of each spin
    block of the Green's function is the same before and after, whether or
    not the walker has reached the last time slice. *)
Theorem propagate_greens_function_trace (w : Walker) (spin : bool) :
  (forall k l, (k < ThermalDiscrete.nbasis p)%N -> (l < ThermalDiscrete.nbasis p)%N ->
     \sum_(i <- iota 0 (ThermalDiscrete.nbasis p))
        ThermalDiscrete.BT_inv p spin k i * ThermalDiscrete.BT p spin i l
     = (k == l)%:R) ->
  gtrace (ThermalDiscrete.G (propagate_gf w) spin)
  = gtrace (ThermalDiscrete.G w spin).
Proof.
move=> Hinv; rewrite /ThermalDiscrete.propagate_greens_function.
case: ifP => // _; rewrite /gtrace /= /ThermalDiscrete.dot.
set n := ThermalDiscrete.nbasis p; set r := iota 0 n.
set G := ThermalDiscrete.G w spin.
set B := ThermalDiscrete.BT p spin; set Bi := ThermalDiscrete.BT_inv p spin.
have mem_r k : k \in r -> (k < n)%N by rewrite mem_iota add0n.
transitivity (\sum_(l <- r) \sum_(k <- r) G l k * \sum_(i <- r) Bi k i * B i l).
  under eq_bigr do under eq_bigr do rewrite big_distrl /=.
  rewrite exchange_big /=; under eq_bigr do rewrite exchange_big /=.
  rewrite exchange_big /=; apply: eq_bigr => l _.
  apply: eq_bigr => k _; rewrite big_distrr /=.
  by apply: eq_bigr => i _; rewrite -mulrA mulrCA [B i l * Bi k i]mulrC.
rewrite big_seq [RHS]big_seq; apply: eq_bigr => l Hl.
rewrite (bigD1_seq l) ?iota_uniq //= Hinv ?mem_r // eqxx mulr1.
rewrite big_seq_cond big1 ?addr0 // => k /andP[Hk /negbTE ne].
by rewrite Hinv ?mem_r // ne mulr0.
Qed.

End ThermalProps.

(** A one-site lattice with no interaction ([delta = 0]) in exact
    arithmetic, on a walker without a stack. *)
Definition flat_propagator (nstblz : nat) : ThermalDiscrete.Propagator rat :=
  ThermalDiscrete.mkPropagator 1 (fun _ _ => 0) (fun _ _ => 1)
    (fun _ i j => (i == j)%:R) (fun _ i j => (i == j)%:R)
    (fun _ i j => (i == j)%:R) nstblz.

Definition flat_g : ThermalDiscrete.gf rat := fun _ _ _ => 0.

Definition flat_walker : ThermalDiscrete.Walker rat rat unit :=
  ThermalDiscrete.mkWalker 1 flat_g tt.

Definition flat_sweep : ThermalDiscrete.sweep rat rat unit :=
  ThermalDiscrete.mkSweep flat_walker (fun _ _ => 0) half_rng.

Definition flat_constrained (nstblz : nat)
    : Py.M (ThermalDiscrete.sweep rat rat unit) unit :=
  ThermalDiscrete.propagate_walker_constrained id (fun _ => 1) (fun _ st => st)
    (fun _ => 0%N) (fun _ => 0%N) (fun _ _ _ _ _ => 0) (flat_propagator nstblz) 0.

Lemma drawn_field_denominators_witness :
  let probs := ThermalDiscrete.calculate_overlap_ratio (flat_propagator 1) flat_g 0 in
  let c := (Num.max (id probs.1) 0, Num.max (id probs.2) 0) in
  let norm := c.1 + c.2 in
  let xi := ~~ ((1 / 2 : rat) < c.1 / norm) in
  0 < (if xi then c.2 else c.1)
  /\ forall spin,
       1 + (1 - flat_g spin 0%N 0%N) * ThermalDiscrete.delta (flat_propagator 1) xi spin
       != 0.
Proof.
move=> probs c norm xi.
apply: (@drawn_field_denominators rat rat id (flat_propagator 1) flat_g 0 (1 / 2)).
- by [].
- by vm_compute.
- by vm_compute.
Defined.

Lemma constrained_weight_product_witness :
  exists s',
    [/\ flat_constrained 1 flat_sweep = Py.Ok tt s',
        ThermalDiscrete.weight (ThermalDiscrete.walker s')
        = 1 * \prod_(0 <= j < 1)
                site_factor id (fun _ => 1) (flat_propagator 1) 0 flat_sweep j,
        Rng.pos (ThermalDiscrete.rng s') = (0 + 1)%N
      & (0 <= (1 : rat)) && (0 <= (1 : rat))
        ==> (0 <= ThermalDiscrete.weight (ThermalDiscrete.walker s'))].
Proof.
exact: (@constrained_weight_product rat rat id (fun _ => 1) unit (fun _ st => st)
          (fun _ => 0%N) (fun _ => 0%N) (fun _ _ _ _ _ => 0) (flat_propagator 1)
          0 flat_sweep isT).
Defined.

Lemma constrained_zero_nstblz_witness :
  exists s', flat_constrained 0 flat_sweep = Py.Raise Py.ZeroDivisionError s'.
Proof.
have [s' [E _ _ _ _]] :=
  @constrained_zero_nstblz rat rat id (fun _ => 1) unit (fun _ st => st)
    (fun _ => 0%N) (fun _ => 0%N) (fun _ _ _ _ _ => 0) (flat_propagator 0)
    0 flat_sweep erefl.
by exists s'.
Defined.

Lemma propagate_greens_function_trace_witness :
  gtrace (flat_propagator 1)
    (ThermalDiscrete.G
       (ThermalDiscrete.propagate_greens_function (fun _ => 0%N) (fun _ => 1%N)
          (flat_propagator 1) flat_walker) false)
  = gtrace (flat_propagator 1) (ThermalDiscrete.G flat_walker false).
Proof.
apply: (@propagate_greens_function_trace rat rat unit (fun _ => 0%N) (fun _ => 1%N)
          (flat_propagator 1) flat_walker false).
by move=> [|k] [|l] //= _ _; rewrite big_seq1 mulr1.
Defined.

(** ** The Taylor series of the matrix exponential *)

Section TaylorSeries.
Variable R : Type.
Variable C : fieldType.
Variables nbasis nfields : nat.
Notation Self := (Continuous.Self C nbasis nfields).
Implicit Types (VHS M : 'M[C]_nbasis).









End TaylorSeries.

(** ** comb of walker.py without a communicator *)

Section CombNoComm.
Variable R : realFieldType.
Variable C : fieldType.
Variables nbasis nup ndown : nat.
Notation Walker := (SingleDet.Walker R C nbasis nup ndown).
Notation Walkers := (Ensemble.Walkers R C nbasis nup ndown).
Implicit Types (ws : Walkers) (g : Rng.state R).

Lemma all_zeros_nseq (n : nat) : all (fun x : R => x == 0) (nseq n 0).
Proof. by rewrite all_nseq eqxx orbT. Qed.

Lemma comb_plan_identity (nw k i : nat) (send recv : seq (nat * nat * nat)) :
  (0 < nw)%N ->
  Ensemble.comb_plan 0 nw (iota i k) i send recv = inr (send, recv).
Proof.
case: nw => // nw _; elim: k i => [|k IH] i //=.
by rewrite eqxx /= !andbF IH.
Qed.

(** X25. [comb] of walker.py called without a communicator ([comm = None],
    [iproc = 0]) never completes.  The weights are never gathered, so every
    tooth meets cumulative weights that are all zero, no walker is
    replaced, and the call ends in [AttributeError] at [comm.Barrier()]
    (in [ZeroDivisionError] at [i % self.nw] when [nw = 0] and there are
    walkers).  One number has been drawn, and no weight has been reset. *)
Theorem comb_no_comm_raises (nprocs : nat) ws g :
  Ensemble.comb_no_comm nprocs (ws, g)
  = Py.Raise
      (if (Ensemble.nw ws == 0%N) && (0 < size (Ensemble.walkers ws) * nprocs)%N
       then Py.ZeroDivisionError else Py.AttributeError "Barrier")
      (ws, Rng.mk (Rng.stream g) (Rng.pos g).+1).
Proof.
rewrite /Ensemble.comb_no_comm /Rng.random.
set gw := nseq _ _; set r := Rng.stream g _.
have Hz : all (fun x : R => x == 0) gw by apply: all_zeros_nseq.
have -> : Ensemble.comb_parents gw (Ensemble.nw ws * nprocs) r
          = inr (iota 0 (size gw)).
  by rewrite /Ensemble.comb_parents assign_parents_none //; apply: teeth_zeros.
rewrite size_nseq; case: (Ensemble.nw ws) => [|n] /=.
  by case: (size _ * _)%N.
by rewrite comb_plan_identity.
Qed.

End CombNoComm.

(** ** The rank-one update of the thermal Green's function *)

Section GreensUpdate.
Variable C : fieldType.
Variable p : ThermalDiscrete.Propagator C.
Implicit Types (g : ThermalDiscrete.gf C) (xi spin : bool).

(** X26. [update_greens_function] at the site that was flipped.  With a
    non-zero denominator [1 + (1 - G_ii) delta], the new diagonal element
    is [G_ii] divided by that denominator, and the hole density
    [1 - G_ii] is multiplied by [(1 + delta)] over it; the ratio of the two
    is thus multiplied by [1 + delta], the auxiliary-field factor. *)
Theorem update_greens_function_site g (i : nat) xi spin :
  let d := ThermalDiscrete.delta p xi spin in
  let denom := 1 + (1 - g spin i i) * d in
  denom != 0 ->
  ThermalDiscrete.update_greens_function p i xi g spin i i = g spin i i / denom
  /\ 1 - ThermalDiscrete.update_greens_function p i xi g spin i i
     = (1 - g spin i i) * (1 + d) / denom.
Proof.
move=> d denom nz.
have E : ThermalDiscrete.update_greens_function p i xi g spin i i
         = g spin i i / denom.
  rewrite /ThermalDiscrete.update_greens_function /ThermalDiscrete.update_spin.
  rewrite eqxx -/d -/denom.
  rewrite -{1}(mulfK nz (g spin i i)) -mulrBl; congr (_ / _).
  have -> : - g spin i i + true%:R = 1 - g spin i i by rewrite addrC.
  rewrite /denom mulrDr mulr1 [d * (g spin i i * _)]mulrCA.
  by rewrite [d * (1 - g spin i i)]mulrC addrK.
split=> //; rewrite E -{1}(divff nz) -mulrBl; congr (_ / _).
by rewrite /denom mulrDr mulr1 addrAC.
Qed.

End GreensUpdate.

Definition pair_ensemble : Ensemble.Walkers rat rat 1 1 1 :=
  Ensemble.mkWalkers (Config.Str rat "comb") (Config.Num 4)
    (Config.Num (5 / 100)) (Config.Num 2) (Config.Num 1)
    [:: unit_walker 1; unit_walker 3] 0 2.

Lemma comb_no_comm_raises_witness :
  Ensemble.comb_no_comm 1 (pair_ensemble, half_rng)
  = Py.Raise (Py.AttributeError "Barrier") (pair_ensemble, Rng.mk (fun _ => 1 / 2) 1).
Proof. exact: (@comb_no_comm_raises rat rat 1 1 1 1 pair_ensemble half_rng). Defined.

Definition unit_shift : ThermalDiscrete.Propagator rat :=
  ThermalDiscrete.mkPropagator 1 (fun _ _ => 1) (fun _ _ => 2)
    (fun _ i j => (i == j)%:R) (fun _ i j => (i == j)%:R)
    (fun _ i j => (i == j)%:R) 1.

Definition half_g : ThermalDiscrete.gf rat := fun _ _ _ => 1 / 2.

Lemma update_greens_function_site_witness :
  ThermalDiscrete.update_greens_function unit_shift 0 false half_g false 0%N 0%N
    = (1 / 2) / (1 + (1 - 1 / 2) * 1)
  /\ 1 - ThermalDiscrete.update_greens_function unit_shift 0 false half_g false 0%N 0%N
     = (1 - 1 / 2) * (1 + 1) / (1 + (1 - 1 / 2) * 1).
Proof.
apply: (@update_greens_function_site rat unit_shift half_g 0 false false).
by vm_compute.
Defined.
